(** * SelectQuery: a shallow embedding of [src/select-query.ts]

    The class [SelectQuery<T>] wraps a JavaScript array of records and offers
    chainable transforms ([limit], [offset], [paginate], [where], [select])
    and terminal reads ([first], [last], [get], [count], [sum], [keyBy]).

    Modelling choices, all visible in the definitions below:
    - a field value is a JavaScript primitive ([value]); the numbers held
      by fields are the finite integer-valued ones, written as [Z], and
      the arguments of [limit], [offset] and [paginate] are integers;
      [+] is the addition of doubles ([Js.add]): the exact sum rounded to
      53 significant bits, ties to even, with overflow to an infinity;
      strings are sequences of code units below 128;
    - a record is the finite map of its own properties, keyed by strings;
      the prototype chain is not modelled;
    - arrays live in a store and are passed by reference, because the
      constructor keeps the reference it is given;
    - a method is a function in the monad [M] of store passing with
      exceptions; every [throw new Error(message)] of the class is
      [Error message], told apart by its message, and an exception raised
      by the engine itself is [TypeError];
    - the relational comparison of the host language is a parameter of
      [where]: what is proved holds for any such comparison. *)

From Stdlib Require Import ZArith Ascii.
From stdpp Require Import gmap strings list fin_maps pretty.

Local Open Scope string_scope.
Local Open Scope Z_scope.
Local Open Scope list_scope.

(** ** Values of the host language *)

Inductive value : Type :=
  | VUndefined
  | VNull
  | VBoolean (b : bool)
  | VNumber (n : Z)
  | VString (s : string).

Global Instance value_eq_dec : EqDecision value.
Proof. solve_decision. Defined.

(** What an accumulator of numbers can hold: a finite integer-valued
    double, or an infinity reached by overflow. *)
Inductive number : Type :=
  | Finite (z : Z)
  | PositiveInfinity
  | NegativeInfinity.

Global Instance number_eq_dec : EqDecision number.
Proof. solve_decision. Defined.

(** An array element: a primitive, or a record given by its own properties. *)
Inductive item : Type :=
  | IPrimitive (v : value)
  | IObject (o : gmap string value).

Global Instance item_eq_dec : EqDecision item.
Proof. solve_decision. Defined.

(** [new Error(message)], and the engine's own [TypeError] (its message is
    engine-defined and left out). *)
Inductive exn : Type :=
  | Error (message : string)
  | TypeError.

Global Instance exn_eq_dec : EqDecision exn.
Proof. solve_decision. Defined.

Inductive result (A : Type) : Type :=
  | Ok (a : A)
  | Throw (e : exn).
Arguments Ok {A} a.
Arguments Throw {A} e.

Global Instance result_ret : MRet result := λ A a, Ok a.
Global Instance result_bind : MBind result := λ A B f r,
  match r with
  | Ok a => f a
  | Throw e => Throw e
  end.
Global Instance result_fmap : FMap result := λ A B f r,
  match r with
  | Ok a => Ok (f a)
  | Throw e => Throw e
  end.

(** ** The store of arrays *)

(** A reference is an index into the store; the store is the list of the
    arrays allocated so far. *)
Abbreviation loc := nat (only parsing).
Abbreviation heap := (list (list item)) (only parsing).

(** What a caller can hand to the constructor: a reference to an array, or
    anything else. *)
Inductive jsval : Type :=
  | Arr (a : loc)
  | NotArr (it : item).

Definition M (A : Type) : Type := heap → result A * heap.

Global Instance M_ret : MRet M := λ A a h, (Ok a, h).
Global Instance M_bind : MBind M := λ A B f m h,
  match m h with
  | (Ok a, h') => f a h'
  | (Throw e, h') => (Throw e, h')
  end.

Definition throw {A} (e : exn) : M A := λ h, (Throw e, h).
Definition lift {A} (r : result A) : M A := λ h, (r, h).

(** Reading through a reference. References are never dangling in a
    garbage-collected language; the default is only there for totality. *)
Definition read (a : loc) : M (list item) := λ h, (Ok (default [] (h !! a)), h).

(** A freshly created array gets the next unused reference. *)
Definition alloc (xs : list item) : M loc := λ h, (Ok (List.length h), h ++ [xs]).

(** ** Host-language primitives *)
Module Js.

(** [typeof] *)
Definition typeof_value (v : value) : string :=
  match v with
  | VUndefined => "undefined"
  | VNull => "object"
  | VBoolean _ => "boolean"
  | VNumber _ => "number"
  | VString _ => "string"
  end.

Definition typeof (it : item) : string :=
  match it with
  | IPrimitive v => typeof_value v
  | IObject _ => "object"
  end.

(** Own properties of a string primitive: [length] and the indices. *)
Definition string_property (s key : string) : value :=
  if decide (key = "length") then VNumber (Z.of_nat (String.length s))
  else
    match find (λ i, bool_decide (pretty i = key)) (seq 0 (String.length s)) with
    | Some i => VString (String.substring i 1 s)
    | None => VUndefined
    end.

(** [it[key]] *)
Definition get_property (it : item) (key : string) : result value :=
  match it with
  | IObject o => Ok (default VUndefined (o !! key))
  | IPrimitive VUndefined | IPrimitive VNull => Throw TypeError
  | IPrimitive (VString s) => Ok (string_property s key)
  | IPrimitive _ => Ok VUndefined
  end.

(** [key in it]: the operator refuses a primitive on its right. *)
Definition has_property (key : string) (it : item) : result bool :=
  match it with
  | IObject o => Ok (bool_decide (is_Some (o !! key)))
  | IPrimitive _ => Throw TypeError
  end.

(** [a === b] on primitives. *)
Definition strict_equal (a b : value) : bool := bool_decide (a = b).

(** [v.toString()] *)
Definition toString (v : value) : result string :=
  match v with
  | VUndefined | VNull => Throw TypeError
  | VBoolean b => Ok (if b then "true" else "false")
  | VNumber n => Ok (pretty n)
  | VString s => Ok s
  end.

(** The string a value becomes when it is used as a property key. *)
Definition ToPropertyKey (v : value) : string :=
  match v with
  | VUndefined => "undefined"
  | VNull => "null"
  | VBoolean b => if b then "true" else "false"
  | VNumber n => pretty n
  | VString s => s
  end.

Definition lower_char (c : ascii) : ascii :=
  let n := nat_of_ascii c in
  if ((65 <=? n)%nat && (n <=? 90)%nat)%bool then ascii_of_nat (n + 32) else c.

Fixpoint toLowerCase (s : string) : string :=
  match s with
  | EmptyString => EmptyString
  | String c s' => String (lower_char c) (toLowerCase s')
  end.

Definition startsWith (s search : string) : bool := String.prefix search s.

Fixpoint includes (s search : string) : bool :=
  if String.prefix search s then true
  else
    match s with
    | EmptyString => false
    | String _ s' => includes s' search
    end.

Definition endsWith (s search : string) : bool :=
  let n := String.length s in
  let m := String.length search in
  ((m <=? n)%nat && String.eqb (String.substring (n - m) m s) search)%bool.

(** The magnitude of the double nearest to a natural number, with an
    unbounded exponent: below [2^53] every integer is a double; from there
    on the 53 leading bits are kept and the rest is rounded to nearest,
    a tie going to the even significand. *)
Definition round_magnitude (m : Z) : Z :=
  if m <? 2 ^ 53 then m
  else
    let e := Z.log2 m - 52 in
    let q := m / 2 ^ e in
    let rest := m mod 2 ^ e in
    let half := 2 ^ (e - 1) in
    let q' := if rest <? half then q
              else if half <? rest then q + 1
              else if Z.even q then q else q + 1 in
    q' * 2 ^ e.

(** The double nearest to an integer; a rounded magnitude of [2^1024] or
    more overflows to the infinity of its sign. *)
Definition round_to_double (z : Z) : number :=
  let r := round_magnitude (Z.abs z) in
  if 2 ^ 1024 <=? r then (if z <? 0 then NegativeInfinity else PositiveInfinity)
  else Finite (Z.sgn z * r).

(** [acc + n] for an accumulator and a finite number: the exact sum,
    rounded; an infinity stays what it is. *)
Definition add (acc : number) (n : Z) : number :=
  match acc with
  | Finite a => round_to_double (a + n)
  | PositiveInfinity => PositiveInfinity
  | NegativeInfinity => NegativeInfinity
  end.

(** [Array.prototype.slice]: a relative index counts from the end when
    negative and is clamped to the array. *)
Definition relative_index (len i : Z) : Z :=
  if i <? 0 then Z.max (len + i) 0 else Z.min i len.

Definition slice {A} (xs : list A) (start : Z) (end_ : option Z) : list A :=
  let len := Z.of_nat (List.length xs) in
  let k := relative_index len start in
  let final := match end_ with Some e => relative_index len e | None => len end in
  take (Z.to_nat (final - k)) (drop (Z.to_nat k) xs).

(** [filter], [map] and [reduce] with a callback that may throw: the
    elements are visited from left to right and the first exception
    ends the traversal. *)
Fixpoint filter {A} (f : A → result bool) (xs : list A) : result (list A) :=
  match xs with
  | [] => Ok []
  | x :: xs' =>
      b ← f x;
      ys ← filter f xs';
      Ok (if b : bool then x :: ys else ys)
  end.

Fixpoint map {A B} (f : A → result B) (xs : list A) : result (list B) :=
  match xs with
  | [] => Ok []
  | x :: xs' =>
      y ← f x;
      ys ← map f xs';
      Ok (y :: ys)
  end.

Fixpoint reduce {A B} (f : B → A → result B) (xs : list A) (acc : B) : result B :=
  match xs with
  | [] => Ok acc
  | x :: xs' =>
      acc' ← f acc x;
      reduce f xs' acc'
  end.

(** [a.push(x)], the mutation a caller can perform on an array it holds. *)
Definition push (a : loc) (x : item) : M Z := λ h,
  let xs := default [] (h !! a) in
  (Ok (Z.of_nat (List.length xs) + 1), <[a := xs ++ [x]]> h).

End Js.

(** ** The class *)
Module SelectQuery.

Definition operators : list string :=
  ["==="; "!=="; "<"; "<="; ">"; ">="; "like"; "^like"; "like$"].

(** An instance holds the reference [#collection]. *)
Record t : Type := { collection : loc }.

Definition getOperators : list string := operators.

(** The test of the constructor on one element:
    [typeof item !== 'object' || item === null]. *)
Definition not_an_object (it : item) : bool :=
  negb (bool_decide (Js.typeof it = "object")) || bool_decide (it = IPrimitive VNull).

(** [new SelectQuery(collection)]: the reference handed in is stored as
    it is. *)
Definition new (c : jsval) : M t :=
  match c with
  | NotArr _ => throw (Error "The collection should be an array of objects.")
  | Arr a =>
      xs ← read a;
      if existsb not_an_object xs
      then throw (Error "The collection should be an array of objects.")
      else mret {| collection := a |}
  end.

Definition first (q : t) : M (option item) :=
  xs ← read (collection q); mret (xs !! 0%nat).

Definition last (q : t) : M (option item) :=
  xs ← read (collection q); mret (xs !! (List.length xs - 1)%nat).

(** [get] returns the array itself, not a copy. *)
Definition get (q : t) : M loc := mret (collection q).

Definition count (q : t) : M Z :=
  xs ← read (collection q); mret (Z.of_nat (List.length xs)).

Definition limit (limit : Z) (q : t) : M t :=
  if limit <=? 0 then throw (Error "Limit must be a positive number.")
  else
    xs ← read (collection q);
    a ← alloc (Js.slice xs 0 (Some limit));
    new (Arr a).

Definition offset (offset : Z) (q : t) : M t :=
  xs ← read (collection q);
  if (offset <? 0) || (offset >=? Z.of_nat (List.length xs))
  then throw (Error "Offset is out of range.")
  else
    a ← alloc (Js.slice xs offset None);
    new (Arr a).

Definition paginate (num size : Z) (q : t) : M t :=
  q' ← offset ((Z.max num 1 - 1) * size) q;
  limit size q'.

(** The callback of [sum]. *)
Definition sum_step (key : string) (acc : number) (it : item) : result number :=
  value ← Js.get_property it key;
  match value with
  | VUndefined | VNull => Ok acc
  | VNumber n => Ok (Js.add acc n)
  | VBoolean _ | VString _ =>
      Throw (Error ("Sum operation failed: the property '" +:+ key
                    +:+ "' must be a number in every item of the collection."))
  end.

Definition sum (key : string) (q : t) : M number :=
  xs ← read (collection q);
  lift (Js.reduce (sum_step key) xs (Finite 0)).

(** The callback of [select]: [{ ...acc, [key]: item[key] }] for each key
    in turn, from [{}]. *)
Definition pick (keys : list string) (it : item) : result item :=
  IObject <$>
    Js.reduce (λ (acc : gmap string value) key,
                 v ← Js.get_property it key; Ok (<[key := v]> acc))
              keys ∅.

Definition select (keys : list string) (q : t) : M t :=
  xs ← read (collection q);
  ys ← lift (Js.map (pick keys) xs);
  a ← alloc ys;
  new (Arr a).

(** The callback of [keyBy]. *)
Definition keyBy_step (key : string) (acc : gmap string item) (it : item)
  : result (gmap string item) :=
  keyValue ← Js.get_property it key;
  present ← Js.has_property key it;
  Ok (if present : bool then <[Js.ToPropertyKey keyValue := it]> acc else acc).

Definition keyBy (key : string) (q : t) : M (gmap string item) :=
  xs ← read (collection q);
  lift (Js.reduce (keyBy_step key) xs ∅).

Section Where.

(** The host's relational comparison of two primitives (ECMAScript's
    IsLessThan): [Some b] for a definite answer, [None] when the
    operands do not compare (a NaN is involved). It never throws on
    primitives. The four ordering operators are derived from it as
    the language defines them. *)
Variable IsLessThan : value → value → option bool.

Definition equal (itemValue value : value) : bool :=
  Js.strict_equal itemValue value.

Definition lessThan (itemValue value : value) : bool :=
  bool_decide (IsLessThan itemValue value = Some true).

Definition lessThanOrEqualTo (itemValue value : value) : bool :=
  bool_decide (IsLessThan value itemValue = Some false).

Definition greaterThan (itemValue value : value) : bool :=
  bool_decide (IsLessThan value itemValue = Some true).

Definition greaterThanOrEqualTo (itemValue value : value) : bool :=
  bool_decide (IsLessThan itemValue value = Some false).

Definition like (itemValue value : value) (type : option string) : result bool :=
  v1 ← Js.toLowerCase <$> Js.toString itemValue;
  v2 ← Js.toLowerCase <$> Js.toString value;
  if decide (type = Some "^like") then Ok (Js.startsWith v1 v2)
  else if decide (type = Some "like$") then Ok (Js.endsWith v1 v2)
  else Ok (Js.includes v1 v2).

(** The callback of [where]: the [switch] on the operator is inside
    it, so it runs once per element. *)
Definition matches (key operator : string) (value : value) (it : item)
  : result bool :=
  itemValue ← Js.get_property it key;
  if decide (operator = "===") then Ok (equal itemValue value)
  else if decide (operator = "!==") then Ok (negb (equal itemValue value))
  else if decide (operator = "<") then Ok (lessThan itemValue value)
  else if decide (operator = "<=") then Ok (lessThanOrEqualTo itemValue value)
  else if decide (operator = ">") then Ok (greaterThan itemValue value)
  else if decide (operator = ">=") then Ok (greaterThanOrEqualTo itemValue value)
  else if decide (operator = "like") then like itemValue value None
  else if decide (operator = "^like") then like itemValue value (Some "^like")
  else if decide (operator = "like$") then like itemValue value (Some "like$")
  else Throw (Error ("Unknown operator: " +:+ operator)).

Definition where_ (key operator : string) (value : value) (q : t) : M t :=
  xs ← read (collection q);
  ys ← lift (Js.filter (matches key operator value) xs);
  a ← alloc ys;
  new (Arr a).

(** The five transforms, as data, to speak about all of them at once. *)
Inductive transform : Type :=
  | Limit (n : Z)
  | Offset (n : Z)
  | Paginate (num size : Z)
  | Where (key operator : string) (value : value)
  | Select (keys : list string).

Definition apply (f : transform) (q : t) : M t :=
  match f with
  | Limit n => limit n q
  | Offset n => offset n q
  | Paginate num size => paginate num size q
  | Where key operator value => where_ key operator value q
  | Select keys => select keys q
  end.

End Where.

End SelectQuery.

(** A comparison that answers on numbers only; it serves to run examples
    whose outcome does not depend on the ordering operators. *)
Definition IsLessThan_numbers (a b : value) : option bool :=
  match a, b with
  | VNumber x, VNumber y => Some (x <? y)
  | _, _ => None
  end.

Import SelectQuery.

(** ** Vocabulary of the statements *)

(** A non-null object, what the constructor asks of every element. *)
Definition is_object (it : item) : Prop := ∃ o, it = IObject o.

(** The sequence a Query wraps in a given store: [get()] read through. *)
Definition contents (h : heap) (q : t) : list item :=
  default [] (h !! collection q).

(** The messages of the four deliberate failures. *)
Definition ValidationError : exn := Error "The collection should be an array of objects.".
Definition LimitRangeError : exn := Error "Limit must be a positive number.".
Definition OffsetRangeError : exn := Error "Offset is out of range.".
Definition UnknownOperatorError (operator : string) : exn :=
  Error ("Unknown operator: " +:+ operator).
Definition SumTypeError (key : string) : exn :=
  Error ("Sum operation failed: the property '" +:+ key
         +:+ "' must be a number in every item of the collection.").

(** ** Running the monad *)

Lemma run_bind {A B} (m : M A) (k : A → M B) (h : heap) :
  (m ≫= k) h = match m h with
               | (Ok a, h') => k a h'
               | (Throw e, h') => (Throw e, h')
               end.
Proof. reflexivity. Qed.

Lemma run_read (a : loc) (h : heap) : read a h = (Ok (default [] (h !! a)), h).
Proof. reflexivity. Qed.

Lemma not_an_object_false (it : item) : not_an_object it = false ↔ is_object it.
Proof.
  unfold not_an_object, is_object. destruct it as [v|o]; simpl.
  - split; [|intros [o Ho]; discriminate].
    destruct v; vm_compute; intros H; discriminate.
  - split; [eauto|intros _]. reflexivity.
Qed.

Lemma existsb_not_an_object (xs : list item) :
  existsb not_an_object xs = false ↔ Forall is_object xs.
Proof.
  induction xs as [|x xs IH]; simpl.
  - split; [constructor|reflexivity].
  - rewrite orb_false_iff, IH, not_an_object_false, Forall_cons. reflexivity.
Qed.

(** The constructor on a reference whose array holds objects only. *)
Lemma new_objects (a : loc) (h : heap) (xs : list item) :
  h !! a = Some xs → Forall is_object xs →
  new (Arr a) h = (Ok {| collection := a |}, h).
Proof.
  intros Ha Hxs. unfold new. rewrite run_bind, run_read, Ha. simpl.
  apply existsb_not_an_object in Hxs. rewrite Hxs. reflexivity.
Qed.

(** Wrapping a freshly built array: what every transform ends with. *)
Lemma wrap_fresh (ys : list item) (h : heap) :
  (alloc ys ≫= λ a, new (Arr a)) h =
  (if existsb not_an_object ys then Throw ValidationError
   else Ok {| collection := List.length h |}, h ++ [ys]).
Proof.
  rewrite run_bind. unfold alloc. cbv beta iota. unfold new.
  rewrite run_bind, run_read.
  replace ((h ++ [ys]) !! List.length h) with (Some ys)
    by (rewrite lookup_app_r, Nat.sub_diag by lia; reflexivity).
  simpl. destruct (existsb not_an_object ys); reflexivity.
Qed.

Lemma wrap_fresh_objects (ys : list item) (h : heap) :
  Forall is_object ys →
  (alloc ys ≫= λ a, new (Arr a)) h = (Ok {| collection := List.length h |}, h ++ [ys]).
Proof.
  intros Hys. rewrite wrap_fresh.
  apply existsb_not_an_object in Hys. rewrite Hys. reflexivity.
Qed.

Lemma contents_fresh (h : heap) (ys : list item) :
  contents (h ++ [ys]) {| collection := List.length h |} = ys.
Proof.
  unfold contents. cbn [collection].
  rewrite lookup_app_r, Nat.sub_diag by lia. reflexivity.
Qed.

Lemma contents_old (h : heap) (ys : list item) (q : t) :
  (collection q < List.length h)%nat → contents (h ++ [ys]) q = contents h q.
Proof. intros Hq. unfold contents. rewrite lookup_app_l by exact Hq. reflexivity. Qed.

(** ** [slice] on the arguments the class passes *)

Lemma slice_prefix {A} (xs : list A) (n : Z) :
  0 < n → Js.slice xs 0 (Some n) = take (Z.to_nat n) xs.
Proof.
  intros Hn. unfold Js.slice, Js.relative_index.
  rewrite (proj2 (Z.ltb_ge n 0)) by lia.
  change (0 <? 0) with false. cbv iota.
  rewrite (Z.min_l 0) by lia. rewrite Z.sub_0_r. simpl. rewrite drop_0.
  destruct (Z.le_ge_cases n (Z.of_nat (List.length xs))).
  - rewrite Z.min_l by lia. reflexivity.
  - rewrite Z.min_r by lia. rewrite Nat2Z.id.
    rewrite !take_ge by lia. reflexivity.
Qed.

Lemma slice_suffix {A} (xs : list A) (n : Z) :
  0 ≤ n < Z.of_nat (List.length xs) → Js.slice xs n None = drop (Z.to_nat n) xs.
Proof.
  intros Hn. unfold Js.slice, Js.relative_index.
  rewrite (proj2 (Z.ltb_ge n 0)) by lia.
  rewrite Z.min_l by lia. apply take_ge. rewrite length_drop. lia.
Qed.

(** ** Closed forms of the paging transforms *)

(** A Query is valid in a store when its reference is live and the array
    behind it passes the constructor's test. *)
Definition valid (h : list (list item)) (q : t) : Prop :=
  (collection q < List.length h)%nat ∧ Forall is_object (contents h q).

Lemma run_limit (n : Z) (q : t) (h : heap) :
  limit n q h =
  if n <=? 0 then (Throw LimitRangeError, h)
  else
    let ys := take (Z.to_nat n) (contents h q) in
    (if existsb not_an_object ys then Throw ValidationError
     else Ok {| collection := List.length h |}, h ++ [ys]).
Proof.
  unfold limit. destruct (Z.leb_spec n 0) as [Hn|Hn]; [reflexivity|].
  rewrite run_bind, run_read. fold (contents h q).
  rewrite wrap_fresh, slice_prefix by exact Hn. reflexivity.
Qed.

Lemma run_offset (n : Z) (q : t) (h : heap) :
  offset n q h =
  if (n <? 0) || (n >=? Z.of_nat (List.length (contents h q)))
  then (Throw OffsetRangeError, h)
  else
    let ys := drop (Z.to_nat n) (contents h q) in
    (if existsb not_an_object ys then Throw ValidationError
     else Ok {| collection := List.length h |}, h ++ [ys]).
Proof.
  unfold offset. rewrite run_bind, run_read. fold (contents h q).
  destruct (Z.ltb_spec n 0) as [Hn|Hn]; [reflexivity|].
  destruct (Z.geb_spec n (Z.of_nat (List.length (contents h q)))) as [Hl|Hl];
    [reflexivity|]. change (false || false) with false. cbv iota.
  rewrite wrap_fresh, slice_suffix by lia. reflexivity.
Qed.

Lemma limit_valid (n : Z) (q : t) (h : heap) :
  Forall is_object (contents h q) → 0 < n →
  limit n q h = (Ok {| collection := List.length h |},
                 h ++ [take (Z.to_nat n) (contents h q)]).
Proof.
  intros Hq Hn. rewrite run_limit.
  destruct (Z.leb_spec n 0) as [?|_]; [lia|]. cbv zeta.
  rewrite (proj2 (existsb_not_an_object _)) by (apply Forall_take, Hq).
  reflexivity.
Qed.

Lemma offset_valid (n : Z) (q : t) (h : heap) :
  Forall is_object (contents h q) → 0 ≤ n < Z.of_nat (List.length (contents h q)) →
  offset n q h = (Ok {| collection := List.length h |},
                  h ++ [drop (Z.to_nat n) (contents h q)]).
Proof.
  intros Hq Hn. rewrite run_offset.
  destruct (Z.ltb_spec n 0) as [?|_]; [lia|].
  destruct (Z.geb_spec n (Z.of_nat (List.length (contents h q)))) as [?|_]; [lia|].
  change (false || false) with false. cbv iota zeta.
  rewrite (proj2 (existsb_not_an_object _)) by (apply Forall_drop, Hq).
  reflexivity.
Qed.

Lemma offset_out_of_range (n : Z) (q : t) (h : heap) :
  n < 0 ∨ Z.of_nat (List.length (contents h q)) ≤ n →
  offset n q h = (Throw OffsetRangeError, h).
Proof.
  intros Hn. rewrite run_offset.
  destruct (Z.ltb_spec n 0) as [?|?]; [reflexivity|].
  destruct (Z.geb_spec n (Z.of_nat (List.length (contents h q)))) as [?|?];
    [reflexivity|lia].
Qed.

Lemma fresh_not_old (h : heap) (q : t) :
  (collection q < List.length h)%nat → {| collection := List.length h |} ≠ q.
Proof. intros Hq <-. simpl in Hq. lia. Qed.

(** ** Example data: three users of the test suite, the third without
    [stars] *)

Definition bob : gmap string value :=
  {[ "id" := VString "1"; "name" := VString "Bob"; "age" := VNumber 30;
     "stars" := VNumber 3 ]}.
Definition tom : gmap string value :=
  {[ "id" := VString "2"; "name" := VString "Tom"; "age" := VNumber 28;
     "stars" := VNumber 0 ]}.
Definition sam : gmap string value :=
  {[ "id" := VString "3"; "name" := VString "Sam"; "age" := VNumber 35 ]}.

Definition users : list item := [IObject bob; IObject tom; IObject sam].

(** The store after [const users = [...]], and [new SelectQuery(users)]. *)
Definition store0 : list (list item) := [users].
Definition q0 : t := {| collection := 0%nat |}.

Lemma users_objects : Forall is_object users.
Proof. repeat constructor; eexists; reflexivity. Defined.

Lemma q0_valid : valid store0 q0.
Proof. split; [simpl; lia|exact users_objects]. Defined.

(** ** [limit] *)

(** C9: [limit(n)] fails, with the limit's range error, exactly when
    [n <= 0]; for [n > 0] it returns a new Query holding the first
    [min(n, length)] elements in order, which is the whole sequence when
    [n] exceeds the length. *)
Theorem limit_spec (h : list (list item)) (q : t) (n : Z) :
  valid h q →
  ((∃ e h', limit n q h = (Throw e, h')) ↔ n ≤ 0) ∧
  (n ≤ 0 → limit n q h = (Throw LimitRangeError, h)) ∧
  (0 < n → ∃ q' h',
     limit n q h = (Ok q', h') ∧ q' ≠ q ∧
     contents h' q' =
       take (Z.to_nat (Z.min n (Z.of_nat (List.length (contents h q)))))
            (contents h q) ∧
     (Z.of_nat (List.length (contents h q)) ≤ n → contents h' q' = contents h q)).
Proof.
  intros [Hlive Hobj].
  assert (Hneg : n ≤ 0 → limit n q h = (Throw LimitRangeError, h)).
  { intros Hn. rewrite run_limit.
    destruct (Z.leb_spec n 0) as [_|?]; [reflexivity|lia]. }
  split; [|split; [exact Hneg|]].
  - split; [|intros Hn; rewrite (Hneg Hn); eauto].
    intros (e & h' & Hthrow).
    destruct (Z.le_gt_cases n 0) as [Hn|Hn]; [exact Hn|].
    rewrite limit_valid in Hthrow by (assumption || lia). discriminate.
  - intros Hn. eexists _, _. split; [apply limit_valid; assumption|].
    split; [apply fresh_not_old, Hlive|].
    rewrite contents_fresh. split.
    + destruct (Z.le_ge_cases n (Z.of_nat (List.length (contents h q)))).
      * rewrite Z.min_l by lia. reflexivity.
      * rewrite Z.min_r, Nat2Z.id by lia. rewrite !take_ge by lia. reflexivity.
    + intros Hlen. apply take_ge. lia.
Qed.

Lemma limit_spec_witness :
  valid store0 q0 ∧
  ∃ q' h', limit 2 q0 store0 = (Ok q', h') ∧
           contents h' q' = [IObject bob; IObject tom].
Proof.
  split; [exact q0_valid|].
  destruct (limit_spec store0 q0 2 q0_valid) as (_ & _ & Hpos).
  destruct (Hpos ltac:(lia)) as (q' & h' & Hrun & _ & Hget & _).
  exists q', h'. split; [exact Hrun|]. rewrite Hget. reflexivity.
Defined.

(** ** [offset] *)

(** C4: [offset(n)] fails, with the offset's range error, exactly when
    [n < 0] or [n >= length] (so for [n = length], and for every [n] on an
    empty collection); for [0 <= n < length] it returns a new Query holding
    the sequence without its first [n] elements, in order. *)
Theorem offset_spec (h : list (list item)) (q : t) (n : Z) :
  valid h q →
  ((∃ e h', offset n q h = (Throw e, h')) ↔
     n < 0 ∨ Z.of_nat (List.length (contents h q)) ≤ n) ∧
  (n < 0 ∨ Z.of_nat (List.length (contents h q)) ≤ n →
     offset n q h = (Throw OffsetRangeError, h)) ∧
  (contents h q = [] → offset n q h = (Throw OffsetRangeError, h)) ∧
  (0 ≤ n < Z.of_nat (List.length (contents h q)) → ∃ q' h',
     offset n q h = (Ok q', h') ∧ q' ≠ q ∧
     contents h' q' = drop (Z.to_nat n) (contents h q)).
Proof.
  intros [Hlive Hobj].
  split; [|split; [apply offset_out_of_range|split]].
  - split; [|intros Hn; rewrite (offset_out_of_range _ _ _ Hn); eauto].
    intros (e & h' & Hthrow).
    destruct (Z.lt_ge_cases n 0) as [Hn|Hn]; [left; exact Hn|].
    destruct (Z.le_gt_cases (Z.of_nat (List.length (contents h q))) n) as [Hl|Hl];
      [right; exact Hl|].
    rewrite offset_valid in Hthrow by (assumption || lia). discriminate.
  - intros Hnil. apply offset_out_of_range. rewrite Hnil. simpl. lia.
  - intros Hn. eexists _, _. split; [apply offset_valid; assumption|].
    split; [apply fresh_not_old, Hlive|]. apply contents_fresh.
Qed.

Lemma offset_spec_witness :
  valid store0 q0 ∧
  offset 3 q0 store0 = (Throw OffsetRangeError, store0) ∧
  ∃ q' h', offset 2 q0 store0 = (Ok q', h') ∧ contents h' q' = [IObject sam].
Proof.
  split; [exact q0_valid|].
  destruct (offset_spec store0 q0 3 q0_valid) as (_ & Hout & _).
  destruct (offset_spec store0 q0 2 q0_valid) as (_ & _ & _ & Hin).
  split; [apply Hout; right; simpl; lia|].
  destruct (Hin ltac:(simpl; lia)) as (q' & h' & Hrun & _ & Hget).
  exists q', h'. split; [exact Hrun|]. rewrite Hget. reflexivity.
Defined.

(** ** [paginate] *)

Lemma page_start_first (p s : Z) : p ≤ 1 → (Z.max p 1 - 1) * s = 0.
Proof. intros Hp. rewrite Z.max_r by lia. lia. Qed.

(** C8: [paginate(p, s)] is [offset((max(p,1)-1)*s)] followed by
    [limit(s)]: the two computations agree on every store, so their
    [get()] agree whenever neither raises; a page number [<= 1] behaves as
    page 1; and [paginate] raises exactly what [offset], and then [limit],
    raise: the offset's range error when the page starts outside the
    sequence, the limit's when the size is not positive, and otherwise it
    returns the page. *)
Theorem paginate_spec (h : list (list item)) (q : t) (p s : Z) :
  valid h q →
  let k := (Z.max p 1 - 1) * s in
  let len := Z.of_nat (List.length (contents h q)) in
  paginate p s q h = (offset k q ≫= limit s) h ∧
  (∀ q' h', paginate p s q h = (Ok q', h') →
     ∃ q1 h1 q2 h2, offset k q h = (Ok q1, h1) ∧ limit s q1 h1 = (Ok q2, h2) ∧
                    contents h' q' = contents h2 q2) ∧
  (p ≤ 1 → paginate p s q h = paginate 1 s q h) ∧
  (∀ e, (∃ h', paginate p s q h = (Throw e, h')) ↔
        (∃ h', offset k q h = (Throw e, h')) ∨
        (∃ q1 h1 h', offset k q h = (Ok q1, h1) ∧ limit s q1 h1 = (Throw e, h'))) ∧
  (k < 0 ∨ len ≤ k → paginate p s q h = (Throw OffsetRangeError, h)) ∧
  (0 ≤ k < len → s ≤ 0 → ∃ h', paginate p s q h = (Throw LimitRangeError, h')) ∧
  (0 ≤ k < len → 0 < s → ∃ q' h',
     paginate p s q h = (Ok q', h') ∧
     contents h' q' = take (Z.to_nat s) (drop (Z.to_nat k) (contents h q))).
Proof.
  intros [Hlive Hobj] k len.
  assert (Hdef : paginate p s q h = (offset k q ≫= limit s) h) by reflexivity.
  split; [exact Hdef|]. rewrite Hdef, run_bind.
  split; [|split; [|split; [|split; [|split]]]].
  - intros q' h' Hrun.
    destruct (offset k q h) as [[q1|e] h1] eqn:Hoff; [|discriminate].
    exists q1, h1, q', h'. auto.
  - intros Hp. unfold paginate. fold k.
    replace k with 0 by (symmetry; apply page_start_first, Hp).
    rewrite run_bind. reflexivity.
  - intros e. destruct (offset k q h) as [[q1|e1] h1] eqn:Hoff.
    + split.
      * intros [h' Hrun]. right. exists q1, h1, h'. auto.
      * intros [[h' Hbad]|(q2 & h2 & h' & Heq & Hrun)]; [discriminate|].
        injection Heq as <- <-. eauto.
    + split.
      * intros [h' Hrun]. injection Hrun as <- <-. left. eauto.
      * intros [[h' Hrun]|(q2 & h2 & h' & Heq & _)]; [|discriminate].
        injection Hrun as <- <-. eauto.
  - intros Hk. rewrite offset_out_of_range by exact Hk. reflexivity.
  - intros Hk Hs. rewrite offset_valid by assumption.
    rewrite run_limit. destruct (Z.leb_spec s 0) as [_|?]; [eauto|lia].
  - intros Hk Hs. rewrite offset_valid by assumption.
    assert (Hpage : Forall is_object
              (contents (h ++ [drop (Z.to_nat k) (contents h q)])
                        {| collection := List.length h |})).
    { rewrite contents_fresh. apply Forall_drop, Hobj. }
    rewrite limit_valid by assumption.
    eexists _, _. split; [reflexivity|].
    rewrite !contents_fresh. reflexivity.
Qed.

Lemma paginate_spec_witness :
  valid store0 q0 ∧
  paginate 0 2 q0 store0 = paginate 1 2 q0 store0 ∧
  ∃ q' h', paginate 2 2 q0 store0 = (Ok q', h') ∧ contents h' q' = [IObject sam].
Proof.
  split; [exact q0_valid|].
  destruct (paginate_spec store0 q0 0 2 q0_valid) as (_ & _ & Hfirst & _).
  destruct (paginate_spec store0 q0 2 2 q0_valid) as (_ & _ & _ & _ & _ & _ & Hpage).
  split; [apply Hfirst; lia|].
  destruct (Hpage ltac:(simpl; lia) ltac:(lia)) as (q' & h' & Hrun & Hget).
  exists q', h'. split; [exact Hrun|]. rewrite Hget. reflexivity.
Defined.

(** ** [sum] *)

(** A field value that makes [sum] fail: present, not null-like, and not a
    number. *)
Definition offending (key : string) (it : item) : bool :=
  match it with
  | IObject o =>
      match o !! key with
      | Some (VBoolean _) | Some (VString _) => true
      | _ => false
      end
  | IPrimitive _ => false
  end.

(** The number an element holds under the key, if it holds one. *)
Definition number_at (key : string) (it : item) : option Z :=
  match it with
  | IObject o =>
      match o !! key with
      | Some (VNumber n) => Some n
      | _ => None
      end
  | IPrimitive _ => None
  end.

(** The numbers found under the key, in the order of the sequence; an
    element whose field is missing or null-like gives none. *)
Definition numbers (key : string) (xs : list item) : list Z :=
  omap (number_at key) xs.

(** Their sum as the code computes it: added one by one, from the left,
    each addition rounded as the addition of doubles is. *)
Definition double_total (key : string) (xs : list item) : number :=
  foldl Js.add (Finite 0) (numbers key xs).

(** What an element adds to the exact total: its number, or nothing when
    the field is missing or null-like. *)
Definition addend (key : string) (it : item) : Z :=
  match it with
  | IObject o =>
      match o !! key with
      | Some (VNumber n) => n
      | _ => 0
      end
  | IPrimitive _ => 0
  end.

(** The exact sum, in the integers. *)
Definition total (key : string) (xs : list item) : Z :=
  foldr Z.add 0 (addend key <$> xs).

Lemma sum_step_object (key : string) (acc : number) (o : gmap string value) :
  sum_step key acc (IObject o) =
  if offending key (IObject o) then Throw (SumTypeError key)
  else Ok (match number_at key (IObject o) with
           | Some n => Js.add acc n
           | None => acc
           end).
Proof.
  unfold sum_step, offending, number_at. simpl.
  destruct (o !! key) as [[| |b|n|s]|]; reflexivity.
Qed.

Lemma total_cons (key : string) (it : item) (xs : list item) :
  total key (it :: xs) = addend key it + total key xs.
Proof. reflexivity. Qed.

Lemma addend_number_at (key : string) (it : item) :
  addend key it = default 0 (number_at key it).
Proof.
  destruct it as [v|o]; [reflexivity|]. simpl.
  destruct (o !! key) as [[]|]; reflexivity.
Qed.

(** The fold of [sum], from any accumulator. *)
Lemma reduce_sum_step (key : string) (xs : list item) (acc : number) :
  Forall is_object xs →
  Js.reduce (sum_step key) xs acc =
  if existsb (offending key) xs then Throw (SumTypeError key)
  else Ok (foldl Js.add acc (numbers key xs)).
Proof.
  intros Hxs. revert acc.
  induction Hxs as [|it xs [o ->] _ IH]; intros acc; [reflexivity|].
  cbn [Js.reduce existsb]. rewrite sum_step_object.
  destruct (offending key (IObject o)); [reflexivity|].
  cbn [mbind result_bind orb]. rewrite IH. unfold numbers. cbn [omap list_omap].
  destruct (number_at key (IObject o)); reflexivity.
Qed.

(** Within [-2^53, 2^53] every integer is a double: rounding changes
    nothing there. *)
Lemma round_to_double_safe (z : Z) :
  Z.abs z ≤ 2 ^ 53 → Js.round_to_double z = Finite z.
Proof.
  intros Hz. unfold Js.round_to_double.
  assert (Hr : Js.round_magnitude (Z.abs z) = Z.abs z).
  { unfold Js.round_magnitude.
    destruct (Z.ltb_spec (Z.abs z) (2 ^ 53)) as [_|Hge]; [reflexivity|].
    replace (Z.abs z) with (2 ^ 53) by lia. reflexivity. }
  rewrite Hr. destruct (Z.leb_spec (2 ^ 1024) (Z.abs z)) as [Hbig|_].
  - assert (2 ^ 53 < 2 ^ 1024) by (apply Z.pow_lt_mono_r; lia). lia.
  - f_equal. rewrite Z.mul_comm. apply Z.abs_sgn.
Qed.

(** When every partial sum stays within [-2^53, 2^53], no addition of the
    fold rounds, and the fold gives the exact sum. *)
Lemma foldl_add_exact (key : string) (xs : list item) (acc : Z) :
  (∀ k, (k ≤ List.length xs)%nat → Z.abs (acc + total key (take k xs)) ≤ 2 ^ 53) →
  foldl Js.add (Finite acc) (numbers key xs) = Finite (acc + total key xs).
Proof.
  revert acc. induction xs as [|it xs IH]; intros acc Hsafe.
  - unfold total. simpl. f_equal. lia.
  - rewrite total_cons, Z.add_assoc.
    assert (Hnext : ∀ k, (k ≤ List.length xs)%nat →
              Z.abs (acc + addend key it + total key (take k xs)) ≤ 2 ^ 53).
    { intros k Hk. specialize (Hsafe (S k) ltac:(simpl; lia)).
      rewrite firstn_cons, total_cons, Z.add_assoc in Hsafe. exact Hsafe. }
    rewrite <- (IH _ Hnext). unfold numbers. cbn [omap list_omap].
    rewrite addend_number_at. destruct (number_at key it) as [n|] eqn:Hn.
    + cbn [foldl Js.add default]. rewrite round_to_double_safe; [reflexivity|].
      specialize (Hsafe 1%nat ltac:(simpl; lia)).
      rewrite firstn_cons, take_0, total_cons, addend_number_at, Hn in Hsafe.
      unfold total in Hsafe. simpl in Hsafe. simpl. lia.
    + simpl. rewrite Z.add_0_r. reflexivity.
Qed.

Lemma names_key (key : string) :
  ∃ before after, SumTypeError key = Error (before +:+ key +:+ after).
Proof. eexists _, _. reflexivity. Qed.

(** The addition of doubles is not exact beyond [2^53]: [sum] over two
    records holding [2^53] and [1] gives [2^53]. *)
Example sum_rounds :
  sum "k" q0 [[IObject {[ "k" := VNumber (2 ^ 53) ]}; IObject {[ "k" := VNumber 1 ]}]] =
  (Ok (Finite (2 ^ 53)),
   [[IObject {[ "k" := VNumber (2 ^ 53) ]}; IObject {[ "k" := VNumber 1 ]}]]).
Proof. reflexivity. Qed.

(** C6: [sum(key)] adds up the numbers found under [key], from the left,
    with the addition of the host language: an element whose field is
    missing or null-like adds nothing and raises nothing; the result is
    the exact sum whenever the partial sums stay within [-2^53, 2^53],
    the range where the addition of doubles is exact; as soon as some
    element holds a present value that is not a number, [sum] fails with
    the error whose message names the field; the total is 0 on an empty
    collection and when no element has the field. *)
Theorem sum_spec (h : list (list item)) (q : t) (key : string) :
  valid h q →
  let xs := contents h q in
  (existsb (offending key) xs = false →
     sum key q h = (Ok (foldl Js.add (Finite 0) (numbers key xs)), h)) ∧
  (existsb (offending key) xs = false →
     (∀ k, (k ≤ List.length xs)%nat → Z.abs (total key (take k xs)) ≤ 2 ^ 53) →
     sum key q h = (Ok (Finite (total key xs)), h)) ∧
  (existsb (offending key) xs = true →
     sum key q h = (Throw (SumTypeError key), h) ∧
     ∃ before after, SumTypeError key = Error (before +:+ key +:+ after)) ∧
  (xs = [] → sum key q h = (Ok (Finite 0), h)) ∧
  ((∀ o, IObject o ∈ xs → o !! key = None) → sum key q h = (Ok (Finite 0), h)).
Proof.
  intros [_ Hobj] xs.
  assert (Hrun : sum key q h =
                 (if existsb (offending key) xs then Throw (SumTypeError key)
                  else Ok (foldl Js.add (Finite 0) (numbers key xs)), h)).
  { unfold sum. rewrite run_bind, run_read. fold (contents h q). fold xs.
    unfold lift. rewrite reduce_sum_step by exact Hobj. reflexivity. }
  split; [intros Hnone; rewrite Hrun, Hnone; reflexivity|].
  split; [|split; [|split]].
  - intros Hnone Hsafe. rewrite Hrun, Hnone.
    rewrite (foldl_add_exact key xs 0) by exact Hsafe. reflexivity.
  - intros Hsome. rewrite Hrun, Hsome. split; [reflexivity|apply names_key].
  - intros Hnil. rewrite Hrun, Hnil. reflexivity.
  - intros Habsent. rewrite Hrun.
    assert (Hzero : existsb (offending key) xs = false ∧ numbers key xs = []).
    { clear Hrun. induction Hobj as [|it ys [o ->] _ IH]; [split; reflexivity|].
      destruct IH as [IH1 IH2].
      { intros o' Ho'. apply Habsent. right. exact Ho'. }
      assert (Ho : o !! key = None) by (apply Habsent; left).
      assert (Hoff : offending key (IObject o) = false)
        by (simpl; rewrite Ho; reflexivity).
      assert (Hnum : number_at key (IObject o) = None)
        by (simpl; rewrite Ho; reflexivity).
      unfold numbers in *. subst xs. cbn [existsb omap list_omap].
      rewrite Hoff, Hnum. split; [exact IH1|exact IH2]. }
    destruct Hzero as [-> ->]. reflexivity.
Qed.

Lemma sum_spec_witness :
  valid store0 q0 ∧
  sum "stars" q0 store0 = (Ok (Finite 3), store0) ∧
  sum "name" q0 store0 = (Throw (SumTypeError "name"), store0).
Proof.
  split; [exact q0_valid|].
  destruct (sum_spec store0 q0 "stars" q0_valid) as (_ & Hnum & _).
  destruct (sum_spec store0 q0 "name" q0_valid) as (_ & _ & Hbad & _).
  split; [|apply Hbad; reflexivity].
  apply Hnum; [reflexivity|].
  intros [|[|[|[|k] ] ] ] Hk; vm_compute; discriminate.
Defined.

(** ** [keyBy] *)

(** The key under which an element is filed: its field value as a property
    key, when it has the field. *)
Definition key_of (key : string) (it : item) : option string :=
  match it with
  | IObject o => Js.ToPropertyKey <$> o !! key
  | IPrimitive _ => None
  end.

(** The last element of a sequence filed under [k]. *)
Fixpoint last_keyed (key k : string) (xs : list item) : option item :=
  match xs with
  | [] => None
  | it :: xs' =>
      match last_keyed key k xs' with
      | Some it' => Some it'
      | None => if decide (key_of key it = Some k) then Some it else None
      end
  end.

Lemma keyBy_step_object (key : string) (acc : gmap string item) (o : gmap string value) :
  keyBy_step key acc (IObject o) =
  Ok (match key_of key (IObject o) with
      | Some k => <[k := IObject o]> acc
      | None => acc
      end).
Proof.
  unfold keyBy_step, key_of. simpl.
  destruct (o !! key) as [v|]; reflexivity.
Qed.

Lemma reduce_keyBy_step (key : string) (xs : list item) (acc : gmap string item) :
  Forall is_object xs →
  ∃ m, Js.reduce (keyBy_step key) xs acc = Ok m ∧
       ∀ k, m !! k = match last_keyed key k xs with
                     | Some it => Some it
                     | None => acc !! k
                     end.
Proof.
  intros Hxs. revert acc.
  induction Hxs as [|it xs [o ->] _ IH]; intros acc.
  - exists acc. split; reflexivity.
  - cbn [Js.reduce]. rewrite keyBy_step_object. cbn [mbind result_bind].
    destruct (IH (match key_of key (IObject o) with
                  | Some k => <[k := IObject o]> acc
                  | None => acc
                  end)) as (m & Hrun & Hm).
    exists m. split; [exact Hrun|]. intros k. rewrite Hm. cbn [last_keyed].
    destruct (last_keyed key k xs) as [it'|]; [reflexivity|].
    destruct (key_of key (IObject o)) as [k'|].
    + destruct (decide (Some k' = Some k)) as [[= ->]|Hne].
      * apply lookup_insert_eq.
      * apply lookup_insert_ne. congruence.
    + destruct (decide (None = Some k)); [discriminate|reflexivity].
Qed.

Lemma last_keyed_Some (key k : string) (xs : list item) (it : item) :
  last_keyed key k xs = Some it →
  ∃ j, xs !! j = Some it ∧ key_of key it = Some k ∧
       ∀ j' it', (j < j')%nat → xs !! j' = Some it' → key_of key it' ≠ Some k.
Proof.
  revert it. induction xs as [|x xs IH]; intros it; [discriminate|].
  cbn [last_keyed]. destruct (last_keyed key k xs) as [it0|] eqn:Hlast.
  - intros [= ->]. destruct (IH it eq_refl) as (j & Hj & Hk & Hlater).
    exists (S j). split; [exact Hj|]. split; [exact Hk|].
    intros [|j'] it' Hlt Hj'; [lia|]. apply (Hlater j'); [lia|exact Hj'].
  - destruct (decide (key_of key x = Some k)) as [Hx|Hx]; [|discriminate].
    intros [= ->]. exists 0%nat. split; [reflexivity|]. split; [exact Hx|].
    intros [|j'] it' Hlt Hj' Hk'; [lia|]. simpl in Hj'.
    assert (Hsome : is_Some (last_keyed key k xs)); [|rewrite Hlast in Hsome; destruct Hsome; discriminate].
    clear -Hj' Hk'. revert j' Hj'.
    induction xs as [|y ys IHys]; intros j' Hj'; [discriminate|].
    cbn [last_keyed]. destruct (last_keyed key k ys); [eauto|].
    destruct j' as [|j']; simpl in Hj'.
    + injection Hj' as ->. rewrite decide_True by exact Hk'. eauto.
    + destruct (IHys j' Hj') as [? ?]. discriminate.
Qed.

Lemma last_keyed_last (key k : string) (xs : list item) (j : nat) (it : item) :
  xs !! j = Some it → key_of key it = Some k →
  (∀ j' it', (j < j')%nat → xs !! j' = Some it' → key_of key it' ≠ Some k) →
  last_keyed key k xs = Some it.
Proof.
  intros Hj Hk Hlater.
  destruct (last_keyed key k xs) as [it0|] eqn:Hlast.
  - destruct (last_keyed_Some _ _ _ _ Hlast) as (i & Hi & Hki & Hlater0).
    destruct (Nat.lt_trichotomy i j) as [Hlt|[->|Hgt]].
    + destruct (Hlater0 j it Hlt Hj Hk).
    + congruence.
    + destruct (Hlater i it0 Hgt Hi Hki).
  - exfalso. clear Hlater. revert j Hj Hlast.
    induction xs as [|y ys IH]; intros j Hj; [discriminate|].
    cbn [last_keyed]. destruct (last_keyed key k ys) eqn:Hys; [discriminate|].
    destruct j as [|j]; simpl in Hj.
    + injection Hj as ->. rewrite decide_True by exact Hk. discriminate.
    + intros _. exact (IH j Hj eq_refl).
Qed.

(** C7: the mapping returned by [keyBy(key)] has entries only for elements
    that possess the field, so none for an element lacking it; under a key
    value shared by several elements it holds the one that comes last in
    the sequence; and an element whose key value no other element shares
    is filed under its field value, coerced to a property key. *)
Theorem keyBy_spec (h : list (list item)) (q : t) (key : string) :
  valid h q →
  let xs := contents h q in
  ∃ m, keyBy key q h = (Ok m, h) ∧
    (∀ k it, m !! k = Some it → it ∈ xs ∧ key_of key it = Some k) ∧
    (∀ it, key_of key it = None → ∀ k, m !! k ≠ Some it) ∧
    (∀ j it k, xs !! j = Some it → key_of key it = Some k →
       (∀ j' it', (j < j')%nat → xs !! j' = Some it' → key_of key it' ≠ Some k) →
       m !! k = Some it) ∧
    (∀ i j a b k, (i < j)%nat → xs !! i = Some a → xs !! j = Some b →
       key_of key a = Some k → key_of key b = Some k →
       (∀ j' it', (j < j')%nat → xs !! j' = Some it' → key_of key it' ≠ Some k) →
       m !! k = Some b) ∧
    (∀ j it k, xs !! j = Some it → key_of key it = Some k →
       (∀ j' it', j' ≠ j → xs !! j' = Some it' → key_of key it' ≠ Some k) →
       m !! k = Some it).
Proof.
  intros [_ Hobj] xs.
  destruct (reduce_keyBy_step key xs ∅ Hobj) as (m & Hrun & Hm).
  assert (Hlast : ∀ k, m !! k = last_keyed key k xs).
  { intros k. rewrite Hm. destruct (last_keyed key k xs); [reflexivity|].
    apply lookup_empty. }
  assert (Hwins : ∀ j it k, xs !! j = Some it → key_of key it = Some k →
            (∀ j' it', (j < j')%nat → xs !! j' = Some it' → key_of key it' ≠ Some k) →
            m !! k = Some it).
  { intros j it k Hj Hk Hlater. rewrite Hlast.
    exact (last_keyed_last key k xs j it Hj Hk Hlater). }
  exists m. split.
  { unfold keyBy. rewrite run_bind, run_read. fold (contents h q). fold xs.
    unfold lift. rewrite Hrun. reflexivity. }
  assert (Hentry : ∀ k it, m !! k = Some it → it ∈ xs ∧ key_of key it = Some k).
  { intros k it Hk. rewrite Hlast in Hk.
    destruct (last_keyed_Some _ _ _ _ Hk) as (j & Hj & Hkj & _).
    split; [|exact Hkj]. apply list_elem_of_lookup. eauto. }
  split; [exact Hentry|]. split; [|split; [exact Hwins|split]].
  - intros it Hnone k Hk. destruct (Hentry k it Hk) as [_ Hsome]. congruence.
  - intros i j a b k _ _ Hj _ Hb Hlater. exact (Hwins j b k Hj Hb Hlater).
  - intros j it k Hj Hk Hunique. apply (Hwins j it k Hj Hk).
    intros j' it' Hlt. apply Hunique. lia.
Qed.

(** Two users of the test suite who share a name, and a record without
    one. *)
Definition jon6 : gmap string value :=
  {[ "id" := VString "6"; "name" := VString "Jon"; "age" := VNumber 24 ]}.
Definition jon7 : gmap string value :=
  {[ "id" := VString "7"; "name" := VString "Jon"; "age" := VNumber 24 ]}.
Definition anonymous : gmap string value := {[ "id" := VString "9" ]}.

Definition store1 : list (list item) :=
  [[IObject jon6; IObject jon7; IObject anonymous]].

Lemma q0_valid_store1 : valid store1 q0.
Proof. split; [simpl; lia|repeat constructor; eexists; reflexivity]. Defined.

Lemma keyBy_spec_witness :
  valid store1 q0 ∧
  ∃ m, keyBy "name" q0 store1 = (Ok m, store1) ∧
       m !! "Jon" = Some (IObject jon7) ∧
       (∀ k, m !! k ≠ Some (IObject anonymous)).
Proof.
  split; [exact q0_valid_store1|].
  destruct (keyBy_spec store1 q0 "name" q0_valid_store1)
    as (m & Hrun & _ & Hlacking & _ & Hlater & _).
  exists m. split; [exact Hrun|]. split.
  - apply (Hlater 0%nat 1%nat (IObject jon6)); try reflexivity; [lia|].
    intros [|[|[|j']]] it' Hlt Hj'; try lia; [|discriminate].
    injection Hj' as <-. vm_compute. discriminate.
  - apply Hlacking. reflexivity.
Defined.

(** ** [select] *)

(** The record built by the callback of [select] from a source record:
    every named key is written, with whatever reading it on the source
    gives. *)
Definition project (keys : list string) (o : gmap string value) : gmap string value :=
  foldl (λ acc key, <[key := default VUndefined (o !! key)]> acc) ∅ keys.

Definition projection (keys : list string) (it : item) : item :=
  match it with
  | IObject o => IObject (project keys o)
  | IPrimitive v => IPrimitive v
  end.

Lemma reduce_pick (keys : list string) (o acc : gmap string value) :
  Js.reduce (λ (acc : gmap string value) key,
               v ← Js.get_property (IObject o) key; Ok (<[key := v]> acc))
            keys acc =
  Ok (foldl (λ acc key, <[key := default VUndefined (o !! key)]> acc) acc keys).
Proof.
  revert acc. induction keys as [|key keys IH]; intros acc; [reflexivity|].
  cbn [Js.reduce foldl]. simpl. apply IH.
Qed.

Lemma pick_object (keys : list string) (o : gmap string value) :
  pick keys (IObject o) = Ok (IObject (project keys o)).
Proof. unfold pick. rewrite reduce_pick. reflexivity. Qed.

Lemma map_pick (keys : list string) (xs : list item) :
  Forall is_object xs → Js.map (pick keys) xs = Ok (projection keys <$> xs).
Proof.
  induction 1 as [|it xs [o ->] _ IH]; [reflexivity|].
  cbn [Js.map]. rewrite pick_object, IH. reflexivity.
Qed.

Lemma projection_objects (keys : list string) (xs : list item) :
  Forall is_object xs → Forall is_object (projection keys <$> xs).
Proof.
  intros Hxs. apply Forall_fmap. eapply Forall_impl; [exact Hxs|].
  intros it [o ->]. eexists. reflexivity.
Qed.

Lemma foldl_insert_lookup (o acc : gmap string value) (keys : list string) (k : string) :
  foldl (λ acc key, <[key := default VUndefined (o !! key)]> acc) acc keys !! k =
  if decide (k ∈ keys) then Some (default VUndefined (o !! k)) else acc !! k.
Proof.
  revert acc. induction keys as [|key keys IH]; intros acc.
  - rewrite decide_False by apply not_elem_of_nil. reflexivity.
  - cbn [foldl]. rewrite IH.
    destruct (decide (k ∈ keys)) as [Hin|Hnin].
    + rewrite decide_True by (right; exact Hin). reflexivity.
    + destruct (decide (key = k)) as [->|Hne].
      * rewrite decide_True by left. apply lookup_insert_eq.
      * rewrite decide_False by (rewrite elem_of_cons; intros [?|?]; congruence).
        apply lookup_insert_ne. exact Hne.
Qed.

Lemma project_lookup (keys : list string) (o : gmap string value) (k : string) :
  project keys o !! k =
  if decide (k ∈ keys) then Some (default VUndefined (o !! k)) else None.
Proof.
  unfold project. rewrite foldl_insert_lookup.
  destruct (decide (k ∈ keys)); [reflexivity|apply lookup_empty].
Qed.

Lemma project_dom (keys : list string) (o : gmap string value) :
  dom (project keys o) = list_to_set keys.
Proof.
  apply set_eq. intros k. rewrite elem_of_dom, project_lookup, elem_of_list_to_set.
  destruct (decide (k ∈ keys)) as [Hin|Hnin].
  - split; [intros _; exact Hin|eauto].
  - split; [intros [? ?]; discriminate|intros Hin; destruct (Hnin Hin)].
Qed.

Lemma run_select (keys : list string) (q : t) (h : heap) :
  Forall is_object (contents h q) →
  select keys q h = (Ok {| collection := List.length h |},
                     h ++ [projection keys <$> contents h q]).
Proof.
  intros Hobj. unfold select. rewrite run_bind, run_read. fold (contents h q).
  rewrite run_bind. unfold lift at 1. rewrite map_pick by exact Hobj.
  apply wrap_fresh_objects, projection_objects, Hobj.
Qed.

(** The projection property as the specification words it: same length and
    order, and on the i-th element exactly the named fields that the i-th
    source element possesses. *)
Definition select_keeps_present_fields_only
    (h : list (list item)) (q : t) (keys : list string) : Prop :=
  ∃ q' h', select keys q h = (Ok q', h') ∧
    List.length (contents h' q') = List.length (contents h q) ∧
    ∀ i o, contents h q !! i = Some (IObject o) →
      ∃ p, contents h' q' !! i = Some (IObject p) ∧
           dom p = list_to_set keys ∩ dom o.

(** What [select('stars')] makes of the three users: the third, who has no
    [stars], gets the property all the same, holding [undefined]. *)
Example select_stars :
  select ["stars"] q0 store0 =
  (Ok {| collection := 1%nat |},
   store0 ++ [[IObject {[ "stars" := VNumber 3 ]};
               IObject {[ "stars" := VNumber 0 ]};
               IObject {[ "stars" := VUndefined ]}]]).
Proof. rewrite run_select by exact users_objects. reflexivity. Qed.

(** C1, as worded, fails: [sam] has no [stars], yet the element projected
    from it has the field. *)
Lemma select_absent_key_counterexample :
  sam !! "stars" = None ∧
  ¬ select_keeps_present_fields_only store0 q0 ["stars"].
Proof.
  split; [reflexivity|].
  intros (q' & h' & Hrun & _ & Hfields).
  rewrite run_select in Hrun by exact users_objects.
  injection Hrun as <- <-.
  destruct (Hfields 2%nat sam eq_refl) as (p & Hp & Hdom).
  change (Some (IObject (project ["stars"] sam)) = Some (IObject p)) in Hp.
  injection Hp as <-.
  rewrite project_dom in Hdom.
  assert (Hin : "stars" ∈ (list_to_set ["stars"] : gset string)) by set_solver.
  rewrite Hdom in Hin. apply elem_of_intersection in Hin as [_ Hin].
  apply elem_of_dom in Hin as [v Hv]. discriminate.
Qed.

(** C1, amended: [select(k1,...,kn)] returns a new Query of the same
    length and order whose i-th element has exactly the fields
    [k1,...,kn]: a named key holds the source element's value where the
    source has it, and [undefined] where it has not; no other field is
    kept. *)
Theorem select_spec (h : list (list item)) (q : t) (keys : list string) :
  valid h q →
  ∃ q' h', select keys q h = (Ok q', h') ∧ q' ≠ q ∧
    List.length (contents h' q') = List.length (contents h q) ∧
    ∀ i o, contents h q !! i = Some (IObject o) →
      ∃ p, contents h' q' !! i = Some (IObject p) ∧
           dom p = list_to_set keys ∧
           (∀ k v, k ∈ keys → o !! k = Some v → p !! k = Some v) ∧
           (∀ k, k ∈ keys → o !! k = None → p !! k = Some VUndefined) ∧
           (∀ k, k ∉ keys → p !! k = None).
Proof.
  intros [Hlive Hobj]. eexists _, _.
  split; [apply run_select, Hobj|]. split; [apply fresh_not_old, Hlive|].
  rewrite contents_fresh. split; [apply length_fmap|].
  intros i o Hi. exists (project keys o).
  split; [rewrite list_lookup_fmap, Hi; reflexivity|].
  split; [apply project_dom|]. split; [|split].
  - intros k v Hk Hv. rewrite project_lookup, decide_True, Hv by exact Hk.
    reflexivity.
  - intros k Hk Hv. rewrite project_lookup, decide_True, Hv by exact Hk.
    reflexivity.
  - intros k Hk. rewrite project_lookup, decide_False by exact Hk. reflexivity.
Qed.

Lemma select_spec_witness :
  valid store0 q0 ∧
  ∃ q' h' p, select ["name"; "stars"] q0 store0 = (Ok q', h') ∧
    contents h' q' !! 2%nat = Some (IObject p) ∧
    p !! "name" = Some (VString "Sam") ∧ p !! "stars" = Some VUndefined ∧
    p !! "age" = None.
Proof.
  split; [exact q0_valid|].
  destruct (select_spec store0 q0 ["name"; "stars"] q0_valid)
    as (q' & h' & Hrun & _ & _ & Hfields).
  destruct (Hfields 2%nat sam eq_refl) as (p & Hp & _ & Hkeep & Hfill & Hdrop).
  exists q', h', p. split; [exact Hrun|]. split; [exact Hp|].
  split; [apply Hkeep; [left|reflexivity]|].
  split; [apply Hfill; [right; left|reflexivity]|].
  apply Hdrop. rewrite !elem_of_cons, elem_of_nil.
  intros [?|[?|?]]; [discriminate|discriminate|assumption].
Defined.

(** ** [where] *)

Section WhereFacts.

Variable IsLessThan : value → value → option bool.

Lemma run_where (key operator : string) (v : value) (q : t) (h : heap) :
  where_ IsLessThan key operator v q h =
  match Js.filter (matches IsLessThan key operator v) (contents h q) with
  | Throw e => (Throw e, h)
  | Ok ys =>
      (if existsb not_an_object ys then Throw ValidationError
       else Ok {| collection := List.length h |}, h ++ [ys])
  end.
Proof.
  unfold where_. rewrite run_bind, run_read. fold (contents h q).
  rewrite run_bind. unfold lift at 1.
  destruct (Js.filter _ (contents h q)) as [ys|e]; [|reflexivity].
  apply wrap_fresh.
Qed.

(** A filter that returns keeps a subsequence. *)
Lemma filter_sublist {A} (f : A → result bool) (xs ys : list A) :
  Js.filter f xs = Ok ys → sublist ys xs.
Proof.
  revert ys. induction xs as [|x xs IH]; intros ys; simpl.
  - intros [= <-]. constructor.
  - destruct (f x) as [b|e]; [|discriminate]. simpl.
    destruct (Js.filter f xs) as [zs|e]; [|discriminate]. simpl.
    intros [= <-]. destruct b; [apply sublist_skip|apply sublist_cons]; auto.
Qed.

Lemma filter_objects (f : item → result bool) (xs ys : list item) :
  Forall is_object xs → Js.filter f xs = Ok ys → Forall is_object ys.
Proof.
  intros Hxs. revert ys.
  induction Hxs as [|x xs Hx _ IH]; intros ys; simpl.
  - intros [= <-]. constructor.
  - destruct (f x) as [b|e]; [|discriminate]. simpl.
    destruct (Js.filter f xs) as [zs|e]; [|discriminate]. simpl.
    intros [= <-]. destruct b; [constructor|]; auto.
Qed.

(** A filter that throws throws what its callback threw on some element. *)
Lemma filter_throw {A} (f : A → result bool) (xs : list A) (e : exn) :
  Js.filter f xs = Throw e → ∃ x, x ∈ xs ∧ f x = Throw e.
Proof.
  induction xs as [|x xs IH]; simpl; [discriminate|].
  destruct (f x) as [b|e'] eqn:Hx; simpl.
  - destruct (Js.filter f xs) as [zs|e']; simpl; [discriminate|].
    intros [= ->]. destruct (IH eq_refl) as (y & Hy & Hfy).
    exists y. split; [right; exact Hy|exact Hfy].
  - intros [= ->]. exists x. split; [left|exact Hx].
Qed.

Lemma like_throws (itemValue v : value) (type : option string) (e : exn) :
  like itemValue v type = Throw e → e = TypeError.
Proof.
  unfold like.
  destruct itemValue, v; simpl; try (intros [= <-]; reflexivity);
    repeat case_decide; discriminate.
Qed.

(** An operator outside the closed set reaches the [default] branch. *)
Lemma matches_unknown (key operator : string) (v : value) (o : gmap string value) :
  operator ∉ operators →
  matches IsLessThan key operator v (IObject o) =
  Throw (UnknownOperatorError operator).
Proof.
  intros Hop. unfold matches. simpl.
  repeat (case_decide as Heq;
          [exfalso; apply Hop; rewrite Heq; unfold operators;
           repeat (first [left|right]) | clear Heq]).
  reflexivity.
Qed.

(** On a record, the callback throws either the engine's [TypeError] (a
    coercion in [like]) or the unknown-operator error. *)
Lemma matches_throws (key operator : string) (v : value) (o : gmap string value) (e : exn) :
  matches IsLessThan key operator v (IObject o) = Throw e →
  e = TypeError ∨ e = UnknownOperatorError operator.
Proof.
  unfold matches. simpl.
  repeat (case_decide;
          [first [discriminate
                 |let Hl := fresh in
                  intros Hl; left; exact (like_throws _ _ _ _ Hl)]|]).
  intros [= <-]. right. reflexivity.
Qed.

(** The three string-matching operators on a field that is missing or
    null: the coercion [itemValue.toString()] throws. *)
Lemma matches_like_nullish (key operator : string) (v : value) (o : gmap string value) :
  operator ∈ ["like"; "^like"; "like$"] →
  o !! key = None ∨ o !! key = Some VUndefined ∨ o !! key = Some VNull →
  matches IsLessThan key operator v (IObject o) = Throw TypeError.
Proof.
  intros Hop Hfield. unfold matches. simpl.
  assert (Hlike : ∀ type, like (default VUndefined (o !! key)) v type = Throw TypeError).
  { intros type. destruct Hfield as [-> | [-> | ->] ]; reflexivity. }
  rewrite !elem_of_cons, elem_of_nil in Hop.
  destruct Hop as [-> | [-> | [-> | Hop] ] ]; [| | |destruct Hop];
    simpl; apply Hlike.
Qed.

End WhereFacts.

Section WhereOutcomes.

Variable IsLessThan : value → value → option bool.

(** When every exception of the callback is the same one and some
    element raises it, the filter raises it. *)
Lemma filter_throws_on {A} (f : A → result bool) (xs : list A) (e : exn) :
  (∀ x e', f x = Throw e' → e' = e) →
  (∃ x, x ∈ xs ∧ f x = Throw e) →
  Js.filter f xs = Throw e.
Proof.
  intros Honly (x & Hx & Hfx).
  induction xs as [|y ys IH]; [inversion Hx|]. simpl.
  destruct (f y) as [b|e'] eqn:Hy; simpl.
  - rewrite IH; [reflexivity|].
    apply elem_of_cons in Hx as [->|Hx]; [congruence|exact Hx].
  - rewrite (Honly y e' Hy). reflexivity.
Qed.

(** On an empty collection the callback never runs, whatever the
    operator. *)
Lemma where_empty (key operator : string) (v : value) (q : t) (h : heap) :
  contents h q = [] →
  where_ IsLessThan key operator v q h =
  (Ok {| collection := List.length h |}, h ++ [[]]).
Proof. intros Hnil. rewrite run_where, Hnil. reflexivity. Qed.

(** On a non-empty collection an operator outside the closed set makes
    [where] fail on the first element, with the error naming it. *)
Lemma where_unknown_nonempty (key operator : string) (v : value) (q : t) (h : heap) :
  Forall is_object (contents h q) → contents h q ≠ [] →
  operator ∉ operators →
  where_ IsLessThan key operator v q h = (Throw (UnknownOperatorError operator), h).
Proof.
  intros Hobj Hne Hop. rewrite run_where.
  destruct Hobj as [|it xs [o ->] _]; [destruct Hne; reflexivity|].
  simpl. rewrite matches_unknown by exact Hop. reflexivity.
Qed.

(** A string-matching operator fails with the engine's [TypeError] as
    soon as one element has the field missing or null. *)
Lemma where_like_nullish (key operator : string) (v : value) (q : t) (h : heap)
    (o : gmap string value) :
  Forall is_object (contents h q) → IObject o ∈ contents h q →
  operator ∈ ["like"; "^like"; "like$"] →
  o !! key = None ∨ o !! key = Some VUndefined ∨ o !! key = Some VNull →
  where_ IsLessThan key operator v q h = (Throw TypeError, h).
Proof.
  intros Hobj Hin Hop Hfield. rewrite run_where.
  rewrite (filter_throws_on _ _ TypeError); [reflexivity| |].
  - intros x e' Hx. destruct x as [p|o'].
    + unfold matches in Hx. rewrite !elem_of_cons, elem_of_nil in Hop.
      destruct (Js.get_property (IPrimitive p) key) as [w|e0] eqn:Hget.
      * simpl in Hx.
        destruct Hop as [-> | [-> | [-> | Hop] ] ]; [| | |destruct Hop];
          simpl in Hx; exact (like_throws _ _ _ _ Hx).
      * simpl in Hx. destruct p; simpl in Hget; congruence.
    + destruct (matches_throws _ _ _ _ _ _ Hx) as [He|He]; [exact He|].
      exfalso. rewrite !elem_of_cons, elem_of_nil in Hop.
      unfold matches in Hx. simpl in Hx.
      destruct Hop as [-> | [-> | [-> | Hop] ] ]; [| | |destruct Hop];
        simpl in Hx; apply like_throws in Hx; rewrite Hx in He; discriminate.
  - exists (IObject o). split; [exact Hin|].
    apply matches_like_nullish; assumption.
Qed.

(** C2 (the code at the failing input): the third user has no [stars];
    each of the three string-matching operators applied to that field
    ends in the engine's [TypeError], raised by the coercion of the
    missing value; and so it does on a record whose field is [null]. *)
Theorem where_like_missing_field :
  sam !! "stars" = None ∧
  where_ IsLessThan "stars" "like" (VString "3") q0 store0 = (Throw TypeError, store0) ∧
  where_ IsLessThan "stars" "^like" (VString "3") q0 store0 = (Throw TypeError, store0) ∧
  where_ IsLessThan "stars" "like$" (VString "3") q0 store0 = (Throw TypeError, store0) ∧
  where_ IsLessThan "stars" "like" (VString "3") q0 [[IObject {[ "stars" := VNull ]}]] =
    (Throw TypeError, [[IObject {[ "stars" := VNull ]}]]).
Proof.
  split; [reflexivity|].
  repeat split; rewrite run_where; reflexivity.
Qed.

(** C3 (the code at the failing input): on an empty collection [where]
    with the tag [====], which is not one of the nine operators, returns
    a Query over an empty sequence and raises nothing. *)
Theorem where_unknown_operator_empty :
  ("====" ∉ operators) ∧
  where_ IsLessThan "name" "====" (VString "do") q0 [[]] =
    (Ok {| collection := 1%nat |}, [[]; []]).
Proof.
  split; [|apply where_empty; reflexivity].
  unfold operators. rewrite !elem_of_cons, elem_of_nil.
  intros H. repeat (destruct H as [H|H]; [discriminate|]). exact H.
Qed.

End WhereOutcomes.

(** The same tag on the three users: the test suite's case, which does
    raise. *)
Example where_unknown_operator_users :
  where_ IsLessThan_numbers "name" "====" (VString "do") q0 store0 =
  (Throw (UnknownOperatorError "===="), store0).
Proof. rewrite run_where. reflexivity. Qed.

(** ** What the transforms do to the store, and to the invariant *)

(** The footprint of a transform: it appends arrays to the store and
    touches none that was there; when it returns, the Query it returns
    wraps the last array appended. *)
Inductive allocated (h : list (list item)) : result t * list (list item) → Prop :=
  | allocated_throw (e : exn) (added : list (list item)) :
      allocated h (Throw e, h ++ added)
  | allocated_ok (added : list (list item)) (ys : list item) :
      allocated h (Ok {| collection := List.length (h ++ added) |},
                   (h ++ added) ++ [ys]).

(** The outcome of a transform on a valid Query: a valid Query, or an
    exception other than the constructor's. *)
Definition preserved (out : result t * list (list item)) : Prop :=
  match out with
  | (Ok q', h') => valid h' q'
  | (Throw e, _) => e ≠ ValidationError
  end.

Lemma allocated_here (h : heap) (e : exn) : allocated h (Throw e, h).
Proof.
  pose proof (allocated_throw h e []) as H. rewrite app_nil_r in H. exact H.
Qed.

Lemma allocated_one (h : heap) (ys : list item) :
  allocated h (Ok {| collection := List.length h |}, h ++ [ys]).
Proof.
  pose proof (allocated_ok h [] ys) as H. rewrite app_nil_r in H. exact H.
Qed.

Lemma allocated_after (h added : heap) (out : result t * heap) :
  allocated (h ++ added) out → allocated h out.
Proof.
  intros [e more|more ys].
  - rewrite <- app_assoc. constructor.
  - rewrite <- (app_assoc h added more). constructor.
Qed.

Lemma wrap_allocated (ys : list item) (h : heap) :
  allocated h ((alloc ys ≫= λ a, new (Arr a)) h).
Proof.
  rewrite wrap_fresh. destruct (existsb not_an_object ys);
    [apply allocated_throw|apply allocated_one].
Qed.

Lemma fresh_valid (h : heap) (ys : list item) :
  Forall is_object ys → valid (h ++ [ys]) {| collection := List.length h |}.
Proof.
  intros Hys. split.
  - rewrite length_app. simpl. lia.
  - rewrite contents_fresh. exact Hys.
Qed.

Lemma wrap_preserved (ys : list item) (h : heap) :
  Forall is_object ys → preserved ((alloc ys ≫= λ a, new (Arr a)) h).
Proof.
  intros Hys. rewrite wrap_fresh_objects by exact Hys. apply fresh_valid, Hys.
Qed.

Lemma limit_allocated (n : Z) (q : t) (h : heap) : allocated h (limit n q h).
Proof.
  unfold limit. destruct (n <=? 0); [apply allocated_here|].
  rewrite run_bind, run_read. apply wrap_allocated.
Qed.

Lemma offset_allocated (n : Z) (q : t) (h : heap) : allocated h (offset n q h).
Proof.
  unfold offset. rewrite run_bind, run_read.
  destruct ((n <? 0) || _); [apply allocated_here|apply wrap_allocated].
Qed.

Lemma limit_preserved (n : Z) (q : t) (h : heap) :
  Forall is_object (contents h q) → preserved (limit n q h).
Proof.
  intros Hobj. destruct (Z.le_gt_cases n 0) as [Hn|Hn].
  - rewrite run_limit. destruct (Z.leb_spec n 0) as [_|?]; [|lia].
    simpl. discriminate.
  - rewrite limit_valid by assumption. apply fresh_valid, Forall_take, Hobj.
Qed.

Lemma offset_preserved (n : Z) (q : t) (h : heap) :
  Forall is_object (contents h q) → preserved (offset n q h).
Proof.
  intros Hobj.
  destruct (Z.lt_ge_cases n 0) as [Hn|Hn];
    [rewrite offset_out_of_range by (left; exact Hn); simpl; discriminate|].
  destruct (Z.le_gt_cases (Z.of_nat (List.length (contents h q))) n) as [Hl|Hl];
    [rewrite offset_out_of_range by (right; exact Hl); simpl; discriminate|].
  rewrite offset_valid by (assumption || lia).
  apply fresh_valid, Forall_drop, Hobj.
Qed.

Lemma paginate_allocated (num size : Z) (q : t) (h : heap) :
  allocated h (paginate num size q h).
Proof.
  unfold paginate. rewrite run_bind.
  destruct (offset_allocated ((Z.max num 1 - 1) * size) q h) as [e added|added ys].
  - constructor.
  - apply (allocated_after h (added ++ [ys])).
    rewrite app_assoc. apply limit_allocated.
Qed.

Lemma paginate_preserved (num size : Z) (q : t) (h : heap) :
  Forall is_object (contents h q) → preserved (paginate num size q h).
Proof.
  intros Hobj. unfold paginate. rewrite run_bind.
  pose proof (offset_preserved ((Z.max num 1 - 1) * size) q h Hobj) as Hoff.
  destruct (offset _ q h) as [[q1|e] h1]; [|exact Hoff].
  apply limit_preserved. exact (proj2 Hoff).
Qed.

Lemma select_allocated (keys : list string) (q : t) (h : heap) :
  allocated h (select keys q h).
Proof.
  unfold select. rewrite run_bind, run_read, run_bind. unfold lift at 1.
  destruct (Js.map _ _) as [ys|e]; [apply wrap_allocated|apply allocated_here].
Qed.

Lemma select_preserved (keys : list string) (q : t) (h : heap) :
  Forall is_object (contents h q) → preserved (select keys q h).
Proof.
  intros Hobj. rewrite run_select by exact Hobj.
  apply fresh_valid, projection_objects, Hobj.
Qed.

Section Transforms.

Variable IsLessThan : value → value → option bool.

Lemma where_allocated (key operator : string) (v : value) (q : t) (h : heap) :
  allocated h (where_ IsLessThan key operator v q h).
Proof.
  rewrite run_where. destruct (Js.filter _ _) as [ys|e]; [|apply allocated_here].
  destruct (existsb not_an_object ys); [apply allocated_throw|apply allocated_one].
Qed.

Lemma where_preserved (key operator : string) (v : value) (q : t) (h : heap) :
  Forall is_object (contents h q) →
  preserved (where_ IsLessThan key operator v q h).
Proof.
  intros Hobj. rewrite run_where.
  destruct (Js.filter _ _) as [ys|e] eqn:Hrun.
  - pose proof (filter_objects _ _ _ Hobj Hrun) as Hys.
    rewrite (proj2 (existsb_not_an_object ys) Hys). apply fresh_valid, Hys.
  - simpl. destruct (filter_throw _ _ _ Hrun) as (x & Hx & Hfx).
    rewrite Forall_forall in Hobj. destruct (Hobj x Hx) as [o ->].
    destruct (matches_throws _ _ _ _ _ _ Hfx) as [-> | ->]; discriminate.
Qed.

Lemma apply_allocated (f : transform) (q : t) (h : heap) :
  allocated h (apply IsLessThan f q h).
Proof.
  destruct f; simpl.
  - apply limit_allocated.
  - apply offset_allocated.
  - apply paginate_allocated.
  - apply where_allocated.
  - apply select_allocated.
Qed.

Lemma apply_preserved (f : transform) (q : t) (h : heap) :
  Forall is_object (contents h q) → preserved (apply IsLessThan f q h).
Proof.
  intros Hobj. destruct f; simpl.
  - apply limit_preserved, Hobj.
  - apply offset_preserved, Hobj.
  - apply paginate_preserved, Hobj.
  - apply where_preserved, Hobj.
  - apply select_preserved, Hobj.
Qed.

(** C10: a transform applied to a valid Query returns, when it returns,
    a Query whose every element is a non-null object; and the exception
    of the constructor's validation is never what it raises. *)
Theorem transforms_keep_objects (f : transform) (q : t) (h : list (list item)) :
  valid h q →
  (∀ q' h', apply IsLessThan f q h = (Ok q', h') →
     Forall is_object (contents h' q') ∧ valid h' q') ∧
  (∀ h', apply IsLessThan f q h ≠ (Throw ValidationError, h')).
Proof.
  intros [_ Hobj]. pose proof (apply_preserved f q h Hobj) as Hout.
  split.
  - intros q' h' Hrun. rewrite Hrun in Hout. split; [apply Hout|exact Hout].
  - intros h' Hrun. rewrite Hrun in Hout. apply Hout. reflexivity.
Qed.

End Transforms.

Lemma transforms_keep_objects_witness :
  valid store0 q0 ∧
  ∃ q' h', apply IsLessThan_numbers (Where "age" "<" (VNumber 30)) q0 store0 = (Ok q', h') ∧
           Forall is_object (contents h' q').
Proof.
  split; [exact q0_valid|].
  destruct (transforms_keep_objects IsLessThan_numbers
              (Where "age" "<" (VNumber 30)) q0 store0 q0_valid) as [Hkeep _].
  eexists _, _. split; [reflexivity|].
  apply (Hkeep _ _ eq_refl).
Defined.

(** [where('age', '<', 30)] on the three users: only Tom is under 30. *)
Example where_age_below_30 :
  apply IsLessThan_numbers (Where "age" "<" (VNumber 30)) q0 store0 =
  (Ok {| collection := 1%nat |}, store0 ++ [[IObject tom]]).
Proof. reflexivity. Qed.

(** ** Sharing of the constructor's argument *)

(** What a caller sees of a transform: the sequence of the Query it
    returns, or the exception. *)
Definition observe (out : result t * list (list item)) : result (list item) :=
  match out with
  | (Ok q', h') => Ok (contents h' q')
  | (Throw e, _) => Throw e
  end.

(** The purity that the specification asks for: once [q] has been built
    from the array [a], a later [a.push(x)] changes nothing of what a
    transform of [q] shows. *)
Definition mutation_unobservable (IsLessThan : value → value → option bool)
    (f : transform) (h : list (list item)) (a : nat) (x : item) : Prop :=
  ∀ q h1 n h2,
    new (Arr a) h = (Ok q, h1) → Js.push a x h1 = (Ok n, h2) →
    observe (apply IsLessThan f q h2) = observe (apply IsLessThan f q h1).

(** [const q = new SelectQuery(users); users.push(jon6); q.limit(5).get()]
    has four elements, the pushed one included. *)
Example limit_after_push :
  new (Arr 0%nat) store0 = (Ok q0, store0) ∧
  observe (limit 5 q0 store0) = Ok users ∧
  observe (limit 5 q0 (snd (Js.push 0%nat (IObject jon6) store0))) =
    Ok (users ++ [IObject jon6]).
Proof. repeat split. Qed.

(** C5, as worded, fails in its second half: the Query wraps the caller's
    array itself, and [limit] after a [push] shows the pushed element. *)
Lemma mutation_observable_counterexample :
  ¬ mutation_unobservable IsLessThan_numbers (Limit 5) store0 0%nat (IObject jon6).
Proof.
  intros Hpure.
  specialize (Hpure q0 store0 4 [users ++ [IObject jon6]] eq_refl eq_refl).
  change (Ok (users ++ [IObject jon6]) = Ok users) in Hpure.
  injection Hpure as Hpure. apply (f_equal List.length) in Hpure.
  discriminate.
Qed.

Lemma allocated_footprint (h : heap) (out : result t * heap) :
  allocated h out →
  (∃ added, snd out = h ++ added) ∧
  (∀ q', fst out = Ok q' →
     (List.length h ≤ collection q' < List.length (snd out))%nat).
Proof.
  intros [e added|added ys]; simpl.
  - split; [eauto|discriminate].
  - split; [exists (added ++ [ys]); apply eq_sym, app_assoc|].
    intros q' [= <-]. simpl. rewrite !length_app. simpl. lia.
Qed.

Lemma contents_push_self (h : heap) (q : t) (x : item) :
  (collection q < List.length h)%nat →
  contents (snd (Js.push (collection q) x h)) q = contents h q ++ [x].
Proof.
  intros Hlive. unfold Js.push, contents. simpl.
  rewrite list_lookup_insert_eq by exact Hlive. reflexivity.
Qed.

Lemma contents_push_other (h : heap) (a : nat) (q : t) (x : item) :
  a ≠ collection q → contents (snd (Js.push a x h)) q = contents h q.
Proof.
  intros Hne. unfold Js.push, contents. simpl.
  rewrite list_lookup_insert_ne by exact Hne. reflexivity.
Qed.

(** C5, amended: no transform mutates the Query it is called on, nor any
    sequence already in the store: it only allocates, and the Query it
    returns is a new one over a freshly allocated sequence. The
    constructor keeps the reference it is handed, so a later mutation of
    that sequence by the caller is seen by the Query, hence by the
    transforms applied to it afterwards; the sequence of a Query already
    derived is not affected by such a mutation. *)
Theorem transforms_allocate_only (IsLessThan : value → value → option bool)
    (f : transform) (q : t) (h : list (list item)) (x : item) :
  (collection q < List.length h)%nat →
  let out := apply IsLessThan f q h in
  (∃ added, snd out = h ++ added) ∧
  contents (snd out) q = contents h q ∧
  (∀ q', fst out = Ok q' →
     q' ≠ q ∧ (List.length h ≤ collection q' < List.length (snd out))%nat) ∧
  (∀ a q1 h1, new (Arr a) h = (Ok q1, h1) → collection q1 = a ∧ h1 = h) ∧
  contents (snd (Js.push (collection q) x h)) q = contents h q ++ [x] ∧
  (∀ q', fst out = Ok q' →
     contents (snd (Js.push (collection q) x (snd out))) q' = contents (snd out) q').
Proof.
  intros Hlive out.
  destruct (allocated_footprint h out (apply_allocated IsLessThan f q h))
    as [[added Hgrow] Hfresh].
  split; [eauto|]. split; [|split; [|split; [|split]]].
  - rewrite Hgrow. unfold contents. rewrite lookup_app_l by exact Hlive.
    reflexivity.
  - intros q' Hq'. split; [|exact (Hfresh q' Hq')].
    intros ->. specialize (Hfresh q Hq'). lia.
  - intros a q1 h1. unfold new. rewrite run_bind, run_read.
    destruct (existsb not_an_object _); [discriminate|].
    intros [= <- <-]. split; reflexivity.
  - apply contents_push_self, Hlive.
  - intros q' Hq'. apply contents_push_other.
    specialize (Hfresh q' Hq'). lia.
Qed.

Lemma transforms_allocate_only_witness :
  (collection q0 < List.length store0)%nat ∧
  contents (snd (apply IsLessThan_numbers (Select ["name"]) q0 store0)) q0 = users ∧
  contents (snd (Js.push 0%nat (IObject jon6) store0)) q0 = users ++ [IObject jon6].
Proof.
  assert (Hlive : (collection q0 < List.length store0)%nat) by (simpl; lia).
  split; [exact Hlive|].
  destruct (transforms_allocate_only IsLessThan_numbers (Select ["name"]) q0 store0
              (IObject jon6) Hlive) as (_ & Hsame & _ & _ & Hpush & _).
  split; [exact Hsame|exact Hpush].
Defined.


(** * Further properties of the class *)

(** ** The constructor *)

(** X1: the constructor returns a Query exactly when it is given an array
    whose elements are all non-null objects; the Query then wraps that very
    array and the store is left as it was. In every other case it raises
    the validation error, and only that: for a value that is not an array,
    and for an array holding [null] (whose [typeof] is ['object']) or any
    other primitive. An empty array is accepted. *)
Theorem new_spec (c : jsval) (h : list (list item)) :
  (∀ q h', new c h = (Ok q, h') ↔
     ∃ a, c = Arr a ∧ Forall is_object (default [] (h !! a)) ∧
          q = {| collection := a |} ∧ h' = h) ∧
  (∀ e h', new c h = (Throw e, h') → e = ValidationError ∧ h' = h) ∧
  (∀ it, new (NotArr it) h = (Throw ValidationError, h)) ∧
  (∀ a xs v, h !! a = Some xs → IPrimitive v ∈ xs →
     new (Arr a) h = (Throw ValidationError, h)) ∧
  (∀ a, h !! a = Some [] → new (Arr a) h = (Ok {| collection := a |}, h)).
Proof.
  assert (Hrun : ∀ a, new (Arr a) h =
            (if existsb not_an_object (default [] (h !! a))
             then Throw ValidationError else Ok {| collection := a |}, h)).
  { intros a. unfold new. rewrite run_bind, run_read.
    destruct (existsb not_an_object _); reflexivity. }
  split; [|split; [|split; [|split]]].
  - intros q h'. split.
    + destruct c as [a|it]; [|discriminate]. rewrite Hrun.
      destruct (existsb not_an_object _) eqn:Hex; [discriminate|].
      intros [= <- <-]. exists a. rewrite <- existsb_not_an_object. auto.
    + intros (a & -> & Hobj & -> & ->). rewrite Hrun.
      rewrite (proj2 (existsb_not_an_object _) Hobj). reflexivity.
  - intros e h'. destruct c as [a|it].
    + rewrite Hrun. destruct (existsb not_an_object _); [|discriminate].
      intros [= <- <-]. auto.
    + intros [= <- <-]. auto.
  - reflexivity.
  - intros a xs v Ha Hin. rewrite Hrun, Ha. simpl.
    destruct (existsb not_an_object xs) eqn:Hex; [reflexivity|].
    apply existsb_not_an_object in Hex. rewrite Forall_forall in Hex.
    destruct (Hex _ Hin) as [o Ho]. discriminate.
  - intros a Ha. rewrite Hrun, Ha. reflexivity.
Qed.

(** ** The terminal reads *)

(** X2: [first], [last] and [count] read the wrapped sequence and leave
    the store as it was: [first] is its head, [last] its last element,
    [count] its length; on an empty collection, and only there, [first]
    and [last] give no value and [count] gives 0. *)
Theorem terminal_reads (h : list (list item)) (q : t) :
  let xs := contents h q in
  first q h = (Ok (head xs), h) ∧
  last q h = (Ok (list.last xs), h) ∧
  count q h = (Ok (Z.of_nat (List.length xs)), h) ∧
  (xs = [] ↔ first q h = (Ok None, h)) ∧
  (xs = [] ↔ last q h = (Ok None, h)) ∧
  (xs = [] ↔ count q h = (Ok 0, h)).
Proof.
  intros xs.
  assert (Hfirst : first q h = (Ok (head xs), h)).
  { unfold first. rewrite run_bind, run_read. rewrite head_lookup. reflexivity. }
  assert (Hlast : last q h = (Ok (list.last xs), h)).
  { unfold last. rewrite run_bind, run_read. rewrite last_lookup.
    fold (contents h q). fold xs. rewrite Nat.sub_1_r. reflexivity. }
  assert (Hcount : count q h = (Ok (Z.of_nat (List.length xs)), h)) by reflexivity.
  split; [exact Hfirst|]. split; [exact Hlast|]. split; [exact Hcount|].
  rewrite Hfirst, Hlast, Hcount. split; [|split].
  - split; [intros ->; reflexivity|]. destruct xs; [reflexivity|discriminate].
  - split; [intros ->; reflexivity|].
    destruct xs as [|x xs'] using rev_ind; [reflexivity|].
    rewrite last_snoc. discriminate.
  - split; [intros ->; reflexivity|]. destruct xs; [reflexivity|discriminate].
Qed.

(** ** Transforms as functions of the wrapped sequence *)

(** The value a record gives for a key: [undefined] when it has not got
    the field. *)
Definition field (key : string) (it : item) : value :=
  match it with
  | IObject o => default VUndefined (o !! key)
  | IPrimitive _ => VUndefined
  end.

Definition limit_list (n : Z) (xs : list item) : result (list item) :=
  if n <=? 0 then Throw LimitRangeError else Ok (take (Z.to_nat n) xs).

Definition offset_list (n : Z) (xs : list item) : result (list item) :=
  if (n <? 0) || (n >=? Z.of_nat (List.length xs)) then Throw OffsetRangeError
  else Ok (drop (Z.to_nat n) xs).

(** What each transform makes of a sequence of records. *)
Definition on_list (IsLessThan : value → value → option bool)
    (f : transform) (xs : list item) : result (list item) :=
  match f with
  | Limit n => limit_list n xs
  | Offset n => offset_list n xs
  | Paginate num size => offset_list ((Z.max num 1 - 1) * size) xs ≫= limit_list size
  | Where key operator v => Js.filter (matches IsLessThan key operator v) xs
  | Select keys => Ok (projection keys <$> xs)
  end.

Lemma observe_limit (n : Z) (q : t) (h : heap) :
  Forall is_object (contents h q) →
  observe (limit n q h) = limit_list n (contents h q).
Proof.
  intros Hobj. unfold limit_list. destruct (Z.leb_spec n 0) as [Hn|Hn].
  - rewrite run_limit. destruct (Z.leb_spec n 0) as [_|?]; [reflexivity|lia].
  - rewrite limit_valid by assumption. simpl. rewrite contents_fresh. reflexivity.
Qed.

Lemma observe_offset (n : Z) (q : t) (h : heap) :
  Forall is_object (contents h q) →
  observe (offset n q h) = offset_list n (contents h q).
Proof.
  intros Hobj. unfold offset_list.
  destruct (Z.ltb_spec n 0) as [Hn|Hn];
    [rewrite offset_out_of_range by (left; exact Hn); reflexivity|].
  destruct (Z.geb_spec n (Z.of_nat (List.length (contents h q)))) as [Hl|Hl];
    [rewrite offset_out_of_range by (right; lia); reflexivity|].
  rewrite offset_valid by (assumption || lia). simpl.
  rewrite contents_fresh. reflexivity.
Qed.

(** Sequencing two computations whose outcome depends on the wrapped
    sequence only. *)
Lemma observe_then (m : M t) (g : t → M t) (G : list item → result (list item))
    (h : heap) :
  preserved (m h) →
  (∀ q' h', Forall is_object (contents h' q') → observe (g q' h') = G (contents h' q')) →
  observe ((m ≫= g) h) = observe (m h) ≫= G.
Proof.
  intros Hm Hg. rewrite run_bind. destruct (m h) as [[q'|e] h']; [|reflexivity].
  simpl. apply Hg. exact (proj2 Hm).
Qed.

Section OnList.

Variable IsLessThan : value → value → option bool.

Lemma observe_where (key operator : string) (v : value) (q : t) (h : heap) :
  Forall is_object (contents h q) →
  observe (where_ IsLessThan key operator v q h) =
  Js.filter (matches IsLessThan key operator v) (contents h q).
Proof.
  intros Hobj. rewrite run_where.
  destruct (Js.filter _ _) as [ys|e] eqn:Hrun; [|reflexivity].
  rewrite (proj2 (existsb_not_an_object ys) (filter_objects _ _ _ Hobj Hrun)).
  simpl. rewrite contents_fresh. reflexivity.
Qed.

(** On a valid Query, what a transform shows (the sequence of the Query it
    returns, or its exception) is a function of the wrapped sequence. *)
Lemma observe_apply (f : transform) (q : t) (h : heap) :
  Forall is_object (contents h q) →
  observe (apply IsLessThan f q h) = on_list IsLessThan f (contents h q).
Proof.
  intros Hobj. destruct f as [n|n|num size|key operator v|keys]; simpl.
  - apply observe_limit, Hobj.
  - apply observe_offset, Hobj.
  - unfold paginate.
    rewrite (observe_then _ _ (limit_list size));
      [rewrite observe_offset by exact Hobj; reflexivity
      |apply offset_preserved, Hobj
      |intros q' h'; apply observe_limit].
  - apply observe_where, Hobj.
  - rewrite run_select by exact Hobj. simpl. rewrite contents_fresh. reflexivity.
Qed.

End OnList.

(** ** Paging transforms composed *)

(** Case analysis on the integer tests of [limit] and [offset]. *)
Ltac split_tests :=
  repeat (match goal with
          | |- context [?a <? ?b] => destruct (Z.ltb_spec a b)
          | |- context [?a >=? ?b] => destruct (Z.geb_spec a b)
          | |- context [?a <=? ?b] => destruct (Z.leb_spec a b)
          end; simpl).

Lemma limit_list_twice (n m : Z) (xs : list item) :
  limit_list n xs ≫= limit_list m = limit_list (Z.min n m) xs.
Proof.
  unfold limit_list. split_tests; try lia; try reflexivity.
  rewrite take_take, Z2Nat.inj_min, Nat.min_comm. reflexivity.
Qed.

Lemma offset_list_twice (a b : Z) (xs : list item) :
  0 ≤ a → 0 ≤ b →
  offset_list a xs ≫= offset_list b = offset_list (a + b) xs.
Proof.
  intros Ha Hb. unfold offset_list.
  split_tests; rewrite ?length_drop in *; try lia; try reflexivity.
  rewrite drop_drop, Z2Nat.inj_add by lia. reflexivity.
Qed.

Lemma offset_limit_lists (k n : Z) (xs : list item) :
  0 ≤ k → 0 < n →
  offset_list k xs ≫= limit_list n = limit_list (k + n) xs ≫= offset_list k.
Proof.
  intros Hk Hn. unfold offset_list, limit_list.
  split_tests; rewrite ?length_take in *; try lia; try reflexivity.
  rewrite take_drop_commute, Z2Nat.inj_add by lia. reflexivity.
Qed.

(** X3: two limits in a row are one limit by the smaller bound, errors
    included: [q.limit(n).limit(m)] shows what [q.limit(min(n, m))]
    shows. *)
Theorem limit_limit (h : list (list item)) (q : t) (n m : Z) :
  valid h q →
  observe ((limit n q ≫= limit m) h) = observe (limit (Z.min n m) q h).
Proof.
  intros [_ Hobj].
  rewrite (observe_then _ _ (limit_list m));
    [|apply limit_preserved, Hobj|intros q' h'; apply observe_limit].
  rewrite !observe_limit by exact Hobj. apply limit_list_twice.
Qed.

Lemma limit_limit_witness :
  valid store0 q0 ∧
  observe ((limit 2 q0 ≫= limit 5) store0) = Ok [IObject bob; IObject tom].
Proof.
  split; [exact q0_valid|].
  rewrite (limit_limit store0 q0 2 5 q0_valid). reflexivity.
Defined.

(** X4: two offsets in a row, neither negative, are one offset by their
    sum, errors included: the second fails exactly when the sum reaches
    the length. *)
Theorem offset_offset (h : list (list item)) (q : t) (a b : Z) :
  valid h q → 0 ≤ a → 0 ≤ b →
  observe ((offset a q ≫= offset b) h) = observe (offset (a + b) q h).
Proof.
  intros [_ Hobj] Ha Hb.
  rewrite (observe_then _ _ (offset_list b));
    [|apply offset_preserved, Hobj|intros q' h'; apply observe_offset].
  rewrite !observe_offset by exact Hobj. apply offset_list_twice; assumption.
Qed.

Lemma offset_offset_witness :
  valid store0 q0 ∧ 0 ≤ 1 ∧ 0 ≤ 1 ∧
  observe ((offset 1 q0 ≫= offset 1) store0) = Ok [IObject sam] ∧
  observe ((offset 1 q0 ≫= offset 2) store0) = Throw OffsetRangeError.
Proof.
  split; [exact q0_valid|]. split; [lia|]. split; [lia|].
  rewrite (offset_offset store0 q0 1 1 q0_valid) by lia.
  rewrite (offset_offset store0 q0 1 2 q0_valid) by lia.
  split; reflexivity.
Defined.

(** X5: for [k >= 0] and [n > 0], skipping [k] and then keeping [n] shows
    what keeping [k + n] and then skipping [k] shows, errors included. *)
Theorem offset_limit_commute (h : list (list item)) (q : t) (k n : Z) :
  valid h q → 0 ≤ k → 0 < n →
  observe ((offset k q ≫= limit n) h) = observe ((limit (k + n) q ≫= offset k) h).
Proof.
  intros [_ Hobj] Hk Hn.
  rewrite (observe_then _ _ (limit_list n));
    [|apply offset_preserved, Hobj|intros q' h'; apply observe_limit].
  rewrite (observe_then _ _ (offset_list k));
    [|apply limit_preserved, Hobj|intros q' h'; apply observe_offset].
  rewrite observe_offset, observe_limit by exact Hobj.
  apply offset_limit_lists; assumption.
Qed.

Lemma offset_limit_commute_witness :
  valid store0 q0 ∧ 0 ≤ 1 ∧ 0 < 1 ∧
  observe ((limit (1 + 1) q0 ≫= offset 1) store0) = Ok [IObject tom].
Proof.
  split; [exact q0_valid|]. split; [lia|]. split; [lia|].
  rewrite <- (offset_limit_commute store0 q0 1 1 q0_valid) by lia. reflexivity.
Defined.

Lemma run_first (q : t) (h : heap) : first q h = (Ok (head (contents h q)), h).
Proof. unfold first. rewrite run_bind, run_read, head_lookup. reflexivity. Qed.

Lemma run_last (q : t) (h : heap) : last q h = (Ok (list.last (contents h q)), h).
Proof.
  unfold last. rewrite run_bind, run_read, last_lookup.
  fold (contents h q). rewrite Nat.sub_1_r. reflexivity.
Qed.

Lemma run_count (q : t) (h : heap) :
  count q h = (Ok (Z.of_nat (List.length (contents h q))), h).
Proof. reflexivity. Qed.

Lemma head_take_positive {A} (k : nat) (xs : list A) :
  (0 < k)%nat → head (take k xs) = head xs.
Proof. intros Hk. destruct xs, k; (reflexivity || lia). Qed.

(** X6: reading after paging. After [limit(n)], [n > 0], [count] is
    [min(n, length)] and [first] is the first element of the original;
    after [offset(n)], [0 <= n < length], [count] is [length - n], [first]
    is the original's element of index [n] and [last] is the original's
    last element. *)
Theorem reads_after_paging (h : list (list item)) (q : t) (n : Z) :
  valid h q →
  let xs := contents h q in
  let len := Z.of_nat (List.length xs) in
  (0 < n → ∃ q' h',
     limit n q h = (Ok q', h') ∧
     count q' h' = (Ok (Z.min n len), h') ∧
     first q' h' = (Ok (head xs), h')) ∧
  (0 ≤ n < len → ∃ q' h',
     offset n q h = (Ok q', h') ∧
     count q' h' = (Ok (len - n), h') ∧
     first q' h' = (Ok (xs !! Z.to_nat n), h') ∧
     last q' h' = (Ok (list.last xs), h')).
Proof.
  intros [_ Hobj] xs len. split.
  - intros Hn. eexists _, _. split; [apply limit_valid; assumption|].
    rewrite run_count, run_first, contents_fresh. fold xs. split.
    + rewrite length_take. do 2 f_equal. unfold len. lia.
    + rewrite head_take_positive by lia. reflexivity.
  - intros Hn. eexists _, _. split; [apply offset_valid; assumption|].
    rewrite run_count, run_first, run_last, contents_fresh. fold xs.
    split; [|split].
    + rewrite length_drop. do 2 f_equal. unfold len. lia.
    + rewrite head_lookup, lookup_drop, Nat.add_0_r. reflexivity.
    + rewrite !last_lookup, lookup_drop, length_drop. do 3 f_equal.
      unfold len in Hn. lia.
Qed.

Lemma reads_after_paging_witness :
  valid store0 q0 ∧
  ∃ q' h', offset 1 q0 store0 = (Ok q', h') ∧
           count q' h' = (Ok 2, h') ∧
           first q' h' = (Ok (Some (IObject tom)), h') ∧
           last q' h' = (Ok (Some (IObject sam)), h').
Proof.
  split; [exact q0_valid|].
  destruct (reads_after_paging store0 q0 1 q0_valid) as [_ Hoff].
  destruct (Hoff ltac:(simpl; lia)) as (q' & h' & Hrun & Hc & Hf & Hl).
  exists q', h'. repeat split; assumption.
Defined.

(** ** Pages *)

(** What an outcome shows as a sequence: nothing when it is an
    exception. *)
Definition shown (r : result (list item)) : list item :=
  match r with
  | Ok ys => ys
  | Throw _ => []
  end.

Lemma chunks_concat {A} (s n : nat) (xs : list A) :
  (List.length xs ≤ n * s)%nat →
  concat ((λ i, take s (drop (i * s) xs)) <$> seq 0 n) = xs.
Proof.
  revert xs. induction n as [|n IH]; intros xs Hlen.
  - destruct xs; [reflexivity|simpl in Hlen; lia].
  - cbn [seq fmap list_fmap concat]. rewrite <- fmap_S_seq, <- list_fmap_compose.
    rewrite drop_0.
    rewrite (list_fmap_ext _ (λ i, take s (drop (i * s) (drop s xs))) (seq 0 n)).
    + rewrite IH by (rewrite length_drop; lia). apply take_drop.
    + intros i x _. simpl. rewrite drop_drop. reflexivity.
Qed.

Lemma page_shown (s : Z) (i : nat) (xs : list item) :
  0 < s →
  shown (offset_list ((Z.max (Z.of_nat i + 1) 1 - 1) * s) xs ≫= limit_list s) =
  take (Z.to_nat s) (drop (i * Z.to_nat s) xs).
Proof.
  intros Hs. replace (Z.max (Z.of_nat i + 1) 1 - 1) with (Z.of_nat i) by lia.
  assert (Hk : Z.to_nat (Z.of_nat i * s) = (i * Z.to_nat s)%nat)
    by (rewrite Z2Nat.inj_mul, Nat2Z.id by lia; reflexivity).
  unfold offset_list, limit_list. split_tests; try lia.
  - rewrite drop_ge by lia. rewrite take_nil. reflexivity.
  - rewrite Hk. reflexivity.
Qed.

(** X7: for a page size [s > 0], page [p >= 1] shows the elements of
    index [(p-1)*s] up to [p*s], and raises the offset's range error once
    [(p-1)*s] reaches the length; the pages, taken in order for as long as
    they cover the collection, concatenate to the collection: paging
    neither loses nor repeats an element. *)
Theorem pages_tile (h : list (list item)) (q : t) (s : Z) (n : nat) :
  valid h q → 0 < s →
  let xs := contents h q in
  (∀ i : nat, Z.of_nat i * s < Z.of_nat (List.length xs) →
     observe (paginate (Z.of_nat i + 1) s q h) =
     Ok (take (Z.to_nat s) (drop (i * Z.to_nat s) xs))) ∧
  (∀ i : nat, Z.of_nat (List.length xs) ≤ Z.of_nat i * s →
     observe (paginate (Z.of_nat i + 1) s q h) = Throw OffsetRangeError) ∧
  (Z.of_nat (List.length xs) ≤ Z.of_nat n * s →
     concat ((λ i : nat, shown (observe (paginate (Z.of_nat i + 1) s q h)))
               <$> seq 0 n) = xs).
Proof.
  intros [_ Hobj] Hs xs.
  assert (Hpage : ∀ i : nat, observe (paginate (Z.of_nat i + 1) s q h) =
            offset_list ((Z.max (Z.of_nat i + 1) 1 - 1) * s) xs ≫= limit_list s).
  { intros i. exact (observe_apply (λ _ _, None) (Paginate _ s) q h Hobj). }
  split; [|split].
  - intros i Hi. rewrite Hpage.
    replace (Z.max (Z.of_nat i + 1) 1 - 1) with (Z.of_nat i) by lia.
    unfold offset_list, limit_list. fold xs. split_tests; try lia.
    rewrite Z2Nat.inj_mul, Nat2Z.id by lia. reflexivity.
  - intros i Hi. rewrite Hpage.
    replace (Z.max (Z.of_nat i + 1) 1 - 1) with (Z.of_nat i) by lia.
    unfold offset_list. fold xs. split_tests; try lia; reflexivity.
  - intros Hn.
    rewrite (list_fmap_ext _ (λ i, take (Z.to_nat s) (drop (i * Z.to_nat s) xs))
               (seq 0 n)).
    + apply chunks_concat. nia.
    + intros i x _. simpl. rewrite Hpage. apply page_shown, Hs.
Qed.

Lemma pages_tile_witness :
  valid store0 q0 ∧ 0 < 2 ∧
  observe (paginate 2 2 q0 store0) = Ok [IObject sam] ∧
  observe (paginate 3 2 q0 store0) = Throw OffsetRangeError ∧
  shown (observe (paginate 1 2 q0 store0)) ++
  shown (observe (paginate 2 2 q0 store0)) = users.
Proof.
  split; [exact q0_valid|]. split; [lia|].
  destruct (pages_tile store0 q0 2 2 q0_valid ltac:(lia)) as (Hin & Hout & Hall).
  split; [exact (Hin 1%nat ltac:(simpl; lia))|].
  split; [exact (Hout 2%nat ltac:(simpl; lia))|].
  exact (Hall ltac:(simpl; lia)).
Defined.

(** ** [where] with the operators of the closed set *)

(** A filter whose callback never throws is a plain filter. *)
Lemma filter_total {A} (f : A → result bool) (p : A → bool) (xs : list A) :
  (∀ x, x ∈ xs → f x = Ok (p x)) → Js.filter f xs = Ok (List.filter p xs).
Proof.
  induction xs as [|x xs IH]; intros Hf; [reflexivity|].
  cbn [Js.filter List.filter]. rewrite (Hf x) by left.
  rewrite IH by (intros y Hy; apply Hf; right; exact Hy).
  simpl. destruct (p x); reflexivity.
Qed.

Lemma filter_filter {A} (f : A → result bool) (xs ys : list A) :
  Js.filter f xs = Ok ys → Js.filter f ys = Ok ys.
Proof.
  revert ys. induction xs as [|x xs IH]; intros ys; simpl.
  - intros [= <-]. reflexivity.
  - destruct (f x) as [b|e] eqn:Hx; [|discriminate]. simpl.
    destruct (Js.filter f xs) as [zs|e]; [|discriminate]. simpl.
    intros [= <-]. specialize (IH zs eq_refl). destruct b; [|exact IH].
    simpl. rewrite Hx, IH. reflexivity.
Qed.

(** When one callback answers wherever another does, and says yes
    wherever the other does, its filter keeps at least as much. *)
Lemma filter_weaker {A} (f g : A → result bool) (xs ys : list A) :
  (∀ x b, x ∈ xs → f x = Ok b → ∃ b', g x = Ok b' ∧ (b = true → b' = true)) →
  Js.filter f xs = Ok ys →
  ∃ zs, Js.filter g xs = Ok zs ∧ sublist ys zs.
Proof.
  revert ys. induction xs as [|x xs IH]; intros ys Hfg; simpl.
  - intros [= <-]. exists []. split; [reflexivity|constructor].
  - destruct (f x) as [b|e] eqn:Hx; [|discriminate]. simpl.
    destruct (Js.filter f xs) as [ys'|e] eqn:Hys; [|discriminate]. simpl.
    intros [= <-].
    destruct (Hfg x b ltac:(left) Hx) as (b' & Hgx & Hb).
    destruct (IH ys' (λ y c Hy, Hfg y c ltac:(right; exact Hy)) eq_refl)
      as (zs & Hzs & Hsub).
    rewrite Hgx, Hzs. simpl. eexists. split; [reflexivity|].
    destruct b; [rewrite (Hb eq_refl); apply sublist_skip, Hsub|].
    destruct b'; [apply sublist_cons, Hsub|exact Hsub].
Qed.

Lemma filter_partition_length {A} (p : A → bool) (xs : list A) :
  (List.length (List.filter p xs) + List.length (List.filter (λ x, negb (p x)) xs)
   = List.length xs)%nat.
Proof.
  induction xs as [|x xs IH]; [reflexivity|].
  simpl. destruct (p x); simpl; lia.
Qed.

Lemma get_property_field (key : string) (it : item) :
  is_object it → Js.get_property it key = Ok (field key it).
Proof. intros [o ->]. reflexivity. Qed.

Section WhereOperators.

Variable IsLessThan : value → value → option bool.

(** The test each of the six comparison operators applies to a field
    value. *)
Definition comparison (operator : string) (a v : value) : bool :=
  if decide (operator = "===") then equal a v
  else if decide (operator = "!==") then negb (equal a v)
  else if decide (operator = "<") then lessThan IsLessThan a v
  else if decide (operator = "<=") then lessThanOrEqualTo IsLessThan a v
  else if decide (operator = ">") then greaterThan IsLessThan a v
  else greaterThanOrEqualTo IsLessThan a v.

Lemma matches_comparison (key operator : string) (v : value) (it : item) :
  operator ∈ ["==="; "!=="; "<"; "<="; ">"; ">="] → is_object it →
  matches IsLessThan key operator v it = Ok (comparison operator (field key it) v).
Proof.
  intros Hop [o ->]. rewrite !elem_of_cons, elem_of_nil in Hop.
  destruct Hop as [-> | [-> | [-> | [-> | [-> | [-> | Hop] ] ] ] ] ];
    [reflexivity..|destruct Hop].
Qed.

(** X8: [where] with one of the six comparison operators never throws on a
    valid Query, whatever the fields hold and also where the field is
    missing (it then reads as [undefined]): it returns a new Query over
    the elements that pass the operator's test, in their original order. *)
Theorem where_comparison (key operator : string) (v : value)
    (h : list (list item)) (q : t) :
  valid h q → operator ∈ ["==="; "!=="; "<"; "<="; ">"; ">="] →
  ∃ q' h',
    where_ IsLessThan key operator v q h = (Ok q', h') ∧ q' ≠ q ∧
    contents h' q' =
      List.filter (λ it, comparison operator (field key it) v) (contents h q) ∧
    sublist (contents h' q') (contents h q).
Proof.
  intros [Hlive Hobj] Hop.
  assert (Hrun : Js.filter (matches IsLessThan key operator v) (contents h q) =
                 Ok (List.filter (λ it, comparison operator (field key it) v)
                                 (contents h q))).
  { apply filter_total. intros x Hx. apply matches_comparison; [exact Hop|].
    rewrite Forall_forall in Hobj. exact (Hobj x Hx). }
  pose proof (filter_objects _ _ _ Hobj Hrun) as Hys.
  eexists _, _. split.
  - rewrite run_where, Hrun, (proj2 (existsb_not_an_object _) Hys). reflexivity.
  - split; [apply fresh_not_old, Hlive|]. rewrite contents_fresh.
    split; [reflexivity|]. exact (filter_sublist _ _ _ Hrun).
Qed.

(** X9: [where(key, '===', v)] keeps exactly the elements whose field is
    strictly equal to [v], and [where(key, '!==', v)] exactly the others:
    the two results split the collection, and their lengths add up to its
    length. *)
Theorem where_equal_split (key : string) (v : value)
    (h : list (list item)) (q : t) :
  valid h q →
  let xs := contents h q in
  let same := λ it, bool_decide (field key it = v) in
  observe (where_ IsLessThan key "===" v q h) = Ok (List.filter same xs) ∧
  observe (where_ IsLessThan key "!==" v q h) =
    Ok (List.filter (λ it, negb (same it)) xs) ∧
  (List.length (List.filter same xs) +
   List.length (List.filter (λ it, negb (same it)) xs) = List.length xs)%nat.
Proof.
  intros [_ Hobj] xs same. rewrite !observe_where by exact Hobj.
  rewrite Forall_forall in Hobj. split; [|split].
  - apply filter_total. intros x Hx. destruct (Hobj x Hx) as [o ->]. reflexivity.
  - apply filter_total. intros x Hx. destruct (Hobj x Hx) as [o ->]. reflexivity.
  - apply filter_partition_length.
Qed.

(** X10: when [where] returns, what it returns is a subsequence of the
    collection, and applying the same [where] again changes nothing. *)
Theorem where_idempotent (key operator : string) (v : value)
    (h h1 : list (list item)) (q q1 : t) :
  valid h q →
  where_ IsLessThan key operator v q h = (Ok q1, h1) →
  sublist (contents h1 q1) (contents h q) ∧
  ∃ q2 h2, where_ IsLessThan key operator v q1 h1 = (Ok q2, h2) ∧
           contents h2 q2 = contents h1 q1.
Proof.
  intros [_ Hobj] Hrun. rewrite run_where in Hrun.
  destruct (Js.filter _ (contents h q)) as [ys|e] eqn:Hys; [|discriminate].
  pose proof (filter_objects _ _ _ Hobj Hys) as Hobj1.
  rewrite (proj2 (existsb_not_an_object _) Hobj1) in Hrun.
  injection Hrun as <- <-. rewrite contents_fresh.
  split; [exact (filter_sublist _ _ _ Hys)|].
  eexists _, _. split.
  - rewrite run_where, contents_fresh, (filter_filter _ _ _ Hys).
    rewrite (proj2 (existsb_not_an_object _) Hobj1). reflexivity.
  - apply contents_fresh.
Qed.

End WhereOperators.

Lemma where_comparison_witness :
  valid store0 q0 ∧
  ∃ q' h', where_ IsLessThan_numbers "stars" "!==" (VNumber 3) q0 store0 = (Ok q', h') ∧
           contents h' q' = [IObject tom; IObject sam].
Proof.
  split; [exact q0_valid|].
  destruct (where_comparison IsLessThan_numbers "stars" "!==" (VNumber 3) store0 q0
              q0_valid ltac:(right; left)) as (q' & h' & Hrun & _ & Hget & _).
  exists q', h'. split; [exact Hrun|]. rewrite Hget. reflexivity.
Defined.

Lemma where_equal_split_witness :
  valid store0 q0 ∧
  observe (where_ IsLessThan_numbers "age" "===" (VNumber 28) q0 store0) =
    Ok [IObject tom] ∧
  observe (where_ IsLessThan_numbers "age" "!==" (VNumber 28) q0 store0) =
    Ok [IObject bob; IObject sam].
Proof.
  split; [exact q0_valid|].
  destruct (where_equal_split IsLessThan_numbers "age" (VNumber 28) store0 q0 q0_valid)
    as (Heq & Hne & _).
  rewrite Heq, Hne. split; reflexivity.
Defined.

Lemma where_idempotent_witness :
  valid store0 q0 ∧
  ∃ q1 h1 q2 h2,
    where_ IsLessThan_numbers "age" ">" (VNumber 29) q0 store0 = (Ok q1, h1) ∧
    where_ IsLessThan_numbers "age" ">" (VNumber 29) q1 h1 = (Ok q2, h2) ∧
    contents h2 q2 = contents h1 q1.
Proof.
  split; [exact q0_valid|].
  destruct (where_idempotent IsLessThan_numbers "age" ">" (VNumber 29)
              store0 _ q0 _ q0_valid eq_refl) as (_ & q2 & h2 & Hrun & Hget).
  eexists _, _, q2, h2. split; [reflexivity|]. split; [exact Hrun|exact Hget].
Defined.

(** ** The string-matching operators *)

Definition nullish (v : value) : bool :=
  match v with
  | VUndefined | VNull => true
  | _ => false
  end.

(** The lower-cased string form that [#like] compares; empty where the
    coercion throws. *)
Definition lowered (v : value) : string :=
  match Js.toString v with
  | Ok s => Js.toLowerCase s
  | Throw _ => ""
  end.

(** The test of each string-matching operator on two lower-cased
    strings. *)
Definition like_test (operator : string) (s search : string) : bool :=
  if decide (operator = "^like") then Js.startsWith s search
  else if decide (operator = "like$") then Js.endsWith s search
  else Js.includes s search.

Lemma lower_char_idempotent (c : ascii) :
  Js.lower_char (Js.lower_char c) = Js.lower_char c.
Proof. destruct c as [[] [] [] [] [] [] [] []]; reflexivity. Qed.

Lemma toLowerCase_idempotent (s : string) :
  Js.toLowerCase (Js.toLowerCase s) = Js.toLowerCase s.
Proof.
  induction s as [|c s IH]; [reflexivity|].
  simpl. rewrite lower_char_idempotent, IH. reflexivity.
Qed.

Lemma startsWith_includes (s search : string) :
  Js.startsWith s search = true → Js.includes s search = true.
Proof.
  unfold Js.startsWith. intros Hpre.
  destruct s; cbn [Js.includes]; rewrite Hpre; reflexivity.
Qed.

Lemma substring_includes (s search : string) (k : nat) :
  String.substring k (String.length search) s = search →
  Js.includes s search = true.
Proof.
  revert k. induction s as [|c s IH]; intros k Hsub.
  - destruct k, search; simpl in Hsub; try discriminate; reflexivity.
  - destruct k as [|k].
    + apply String.prefix_correct in Hsub. cbn [Js.includes].
      rewrite Hsub. reflexivity.
    + simpl in Hsub. cbn [Js.includes]. rewrite (IH k Hsub).
      destruct (String.prefix search (String c s)); reflexivity.
Qed.

Lemma endsWith_includes (s search : string) :
  Js.endsWith s search = true → Js.includes s search = true.
Proof.
  unfold Js.endsWith. intros Hend. apply andb_true_iff in Hend as [_ Heq].
  apply String.eqb_eq in Heq. exact (substring_includes _ _ _ Heq).
Qed.

Lemma like_nonnull (a v : value) (type : option string) :
  nullish a = false → nullish v = false →
  like a v type =
  Ok (if decide (type = Some "^like") then Js.startsWith (lowered a) (lowered v)
      else if decide (type = Some "like$") then Js.endsWith (lowered a) (lowered v)
      else Js.includes (lowered a) (lowered v)).
Proof.
  intros Ha Hv. unfold like, lowered.
  destruct a; try discriminate; destruct v; try discriminate; simpl;
    repeat case_decide; reflexivity.
Qed.

Lemma like_returns (a v : value) (type : option string) (b : bool) :
  like a v type = Ok b → nullish a = false ∧ nullish v = false.
Proof.
  unfold like. destruct a; try discriminate; destruct v; try discriminate; auto.
Qed.

(** X11: [#like] ignores case on both sides: a field and a searched text
    match, under each of the three operators, exactly as their lower-case
    forms do. *)
Theorem like_ignores_case (s search : string) (type : option string) :
  like (VString s) (VString search) type =
  like (VString (Js.toLowerCase s)) (VString (Js.toLowerCase search)) type.
Proof. unfold like. simpl. rewrite !toLowerCase_idempotent. reflexivity. Qed.

Section LikeOperators.

Variable IsLessThan : value → value → option bool.

Lemma matches_like (key operator : string) (v : value) (o : gmap string value) :
  operator ∈ ["like"; "^like"; "like$"] →
  matches IsLessThan key operator v (IObject o) =
  like (field key (IObject o)) v
       (if decide (operator = "like") then None else Some operator).
Proof.
  intros Hop. rewrite !elem_of_cons, elem_of_nil in Hop.
  destruct Hop as [-> | [-> | [-> | Hop] ] ]; [reflexivity..|destruct Hop].
Qed.

(** X12: when neither the searched value nor the field of any element is
    [null] or [undefined], [where] with a string-matching operator does
    not throw: it returns the elements whose lower-cased string form
    contains ([like]), starts with ([^like]) or ends with ([like$]) the
    lower-cased string form of the value. *)
Theorem where_like (key operator : string) (v : value)
    (h : list (list item)) (q : t) :
  valid h q → operator ∈ ["like"; "^like"; "like$"] →
  nullish v = false →
  (∀ it, it ∈ contents h q → nullish (field key it) = false) →
  observe (where_ IsLessThan key operator v q h) =
  Ok (List.filter (λ it, like_test operator (lowered (field key it)) (lowered v))
                  (contents h q)).
Proof.
  intros [_ Hobj] Hop Hv Hfields. rewrite observe_where by exact Hobj.
  apply filter_total. intros x Hx.
  rewrite Forall_forall in Hobj. destruct (Hobj x Hx) as [o ->].
  rewrite matches_like by exact Hop.
  rewrite like_nonnull by (exact Hv || exact (Hfields _ Hx)).
  unfold like_test. rewrite !elem_of_cons, elem_of_nil in Hop.
  destruct Hop as [-> | [-> | [-> | Hop] ] ]; [reflexivity..|destruct Hop].
Qed.

(** X13: whatever [^like] or [like$] keeps, [like] keeps too: when
    [where] with the prefix or the suffix operator returns, [where] with
    [like] on the same key and value returns as well, and the former
    result is a subsequence of the latter. *)
Theorem like_contains_prefix_and_suffix (key operator : string) (v : value)
    (h h1 : list (list item)) (q q1 : t) :
  valid h q → operator ∈ ["^like"; "like$"] →
  where_ IsLessThan key operator v q h = (Ok q1, h1) →
  ∃ q2 h2, where_ IsLessThan key "like" v q h = (Ok q2, h2) ∧
           sublist (contents h1 q1) (contents h2 q2).
Proof.
  intros [_ Hobj] Hop Hrun. rewrite run_where in Hrun.
  destruct (Js.filter _ (contents h q)) as [ys|e] eqn:Hys; [|discriminate].
  rewrite (proj2 (existsb_not_an_object _) (filter_objects _ _ _ Hobj Hys)) in Hrun.
  injection Hrun as <- <-. rewrite contents_fresh.
  assert (Hweak : ∀ x b, x ∈ contents h q →
            matches IsLessThan key operator v x = Ok b →
            ∃ b', matches IsLessThan key "like" v x = Ok b' ∧ (b = true → b' = true)).
  { intros x b Hx Hb. pose proof Hobj as Hall. rewrite Forall_forall in Hall.
    destruct (Hall x Hx) as [o ->].
    rewrite matches_like in Hb
      by (rewrite !elem_of_cons in *; tauto).
    destruct (like_returns _ _ _ _ Hb) as [Ha Hv].
    rewrite matches_like by left. rewrite like_nonnull in * by assumption.
    eexists. split; [reflexivity|]. injection Hb as <-.
    rewrite !elem_of_cons, elem_of_nil in Hop.
    destruct Hop as [-> | [-> | Hop] ]; [| |destruct Hop]; simpl.
    - apply startsWith_includes.
    - apply endsWith_includes. }
  destruct (filter_weaker _ _ _ _ Hweak Hys) as (zs & Hzs & Hsub).
  eexists _, _. split.
  - rewrite run_where, Hzs.
    rewrite (proj2 (existsb_not_an_object _) (filter_objects _ _ _ Hobj Hzs)).
    reflexivity.
  - rewrite contents_fresh. exact Hsub.
Qed.

Lemma matches_known_throws (key operator : string) (v : value)
    (o : gmap string value) (e : exn) :
  operator ∈ operators →
  matches IsLessThan key operator v (IObject o) = Throw e → e = TypeError.
Proof.
  intros Hop. unfold operators in Hop. rewrite !elem_of_cons, elem_of_nil in Hop.
  destruct Hop as [-> | [-> | [-> | [-> | [-> | [-> | Hop] ] ] ] ] ];
    try discriminate.
  intros Hlike. rewrite matches_like in Hlike
    by (rewrite !elem_of_cons, elem_of_nil; tauto).
  exact (like_throws _ _ _ _ Hlike).
Qed.

(** X14: on a valid Query, [where] raises the unknown-operator error
    exactly when the tag is outside [getOperators()] and the collection is
    not empty; with a listed operator it never raises it. *)
Theorem where_unknown_iff (key operator : string) (v : value)
    (h : list (list item)) (q : t) :
  valid h q →
  ((∃ e h', where_ IsLessThan key operator v q h = (Throw e, h') ∧
            e = UnknownOperatorError operator) ↔
   (operator ∉ getOperators) ∧ contents h q ≠ []).
Proof.
  intros [_ Hobj]. split.
  - intros (e & h' & Hrun & ->). rewrite run_where in Hrun.
    destruct (Js.filter _ (contents h q)) as [ys|e] eqn:Hys.
    { destruct (existsb not_an_object ys); discriminate. }
    injection Hrun as -> _.
    destruct (filter_throw _ _ _ Hys) as (x & Hx & Hfx).
    split; [|intros Hnil; rewrite Hnil in Hx; inversion Hx].
    intros Hop. rewrite Forall_forall in Hobj. destruct (Hobj x Hx) as [o ->].
    pose proof (matches_known_throws _ _ _ _ _ Hop Hfx). discriminate.
  - intros [Hop Hne]. eexists _, _. split; [|reflexivity].
    apply where_unknown_nonempty; assumption.
Qed.

End LikeOperators.

Lemma where_like_witness :
  valid store0 q0 ∧
  observe (where_ IsLessThan_numbers "name" "like$" (VString "M") q0 store0) =
    Ok [IObject tom; IObject sam].
Proof.
  split; [exact q0_valid|].
  rewrite (where_like IsLessThan_numbers "name" "like$" (VString "M") store0 q0
             q0_valid ltac:(right; right; left) eq_refl).
  - reflexivity.
  - intros it Hit. change (contents store0 q0) with users in Hit.
    unfold users in Hit. rewrite !elem_of_cons, elem_of_nil in Hit.
    destruct Hit as [-> | [-> | [-> | Hit] ] ]; [reflexivity..|destruct Hit].
Defined.

Lemma like_contains_prefix_and_suffix_witness :
  valid store0 q0 ∧
  ∃ q1 h1 q2 h2,
    where_ IsLessThan_numbers "name" "^like" (VString "to") q0 store0 = (Ok q1, h1) ∧
    where_ IsLessThan_numbers "name" "like" (VString "to") q0 store0 = (Ok q2, h2) ∧
    sublist (contents h1 q1) (contents h2 q2).
Proof.
  split; [exact q0_valid|].
  destruct (like_contains_prefix_and_suffix IsLessThan_numbers "name" "^like"
              (VString "to") store0 _ q0 _ q0_valid ltac:(left) eq_refl)
    as (q2 & h2 & Hrun & Hsub).
  eexists _, _, q2, h2. split; [reflexivity|]. split; [exact Hrun|exact Hsub].
Defined.

Lemma where_unknown_iff_witness :
  valid store0 q0 ∧
  ∃ e h', where_ IsLessThan_numbers "name" "=" (VString "Bob") q0 store0 = (Throw e, h') ∧
          e = UnknownOperatorError "=".
Proof.
  split; [exact q0_valid|].
  apply (where_unknown_iff IsLessThan_numbers "name" "=" (VString "Bob") store0 q0
           q0_valid).
  split; [|discriminate].
  unfold getOperators, operators. rewrite !elem_of_cons, elem_of_nil.
  intros H. repeat (destruct H as [H|H]; [discriminate|]). exact H.
Defined.

(** ** [select], [sum] and [keyBy] composed *)

Lemma run_sum (key : string) (q : t) (h : heap) :
  Forall is_object (contents h q) →
  sum key q h =
  (if existsb (offending key) (contents h q) then Throw (SumTypeError key)
   else Ok (double_total key (contents h q)), h).
Proof.
  intros Hobj. unfold sum. rewrite run_bind, run_read. fold (contents h q).
  unfold lift. rewrite reduce_sum_step by exact Hobj. reflexivity.
Qed.

Lemma run_keyBy (key : string) (q : t) (h : heap) :
  keyBy key q h = (Js.reduce (keyBy_step key) (contents h q) ∅, h).
Proof. reflexivity. Qed.

Lemma project_project (keys1 keys2 : list string) (o : gmap string value) :
  keys2 ⊆ keys1 → project keys2 (project keys1 o) = project keys2 o.
Proof.
  intros Hsub. apply map_eq. intros k. rewrite !project_lookup.
  destruct (decide (k ∈ keys2)) as [Hk|Hk]; [|reflexivity].
  rewrite decide_True by (apply Hsub, Hk). reflexivity.
Qed.

Lemma field_projection (keys : list string) (key : string) (it : item) :
  key ∈ keys → is_object it → field key (projection keys it) = field key it.
Proof.
  intros Hkey [o ->]. simpl. rewrite project_lookup, decide_True by exact Hkey.
  reflexivity.
Qed.

Lemma field_projection_other (keys : list string) (key : string) (it : item) :
  key ∉ keys → is_object it → field key (projection keys it) = VUndefined.
Proof.
  intros Hkey [o ->]. simpl. rewrite project_lookup, decide_False by exact Hkey.
  reflexivity.
Qed.

Lemma offending_field (key : string) (it : item) :
  is_object it →
  offending key it = match field key it with
                     | VBoolean _ | VString _ => true
                     | _ => false
                     end.
Proof. intros [o ->]. simpl. destruct (o !! key) as [[]|]; reflexivity. Qed.

Lemma number_at_field (key : string) (it : item) :
  is_object it →
  number_at key it = match field key it with
                     | VNumber n => Some n
                     | _ => None
                     end.
Proof. intros [o ->]. simpl. destruct (o !! key) as [[]|]; reflexivity. Qed.

(** The outcome of [sum] is decided by the values read under the key. *)
Lemma sum_by_fields (key : string) (xs ys : list item) :
  Forall is_object xs → Forall is_object ys →
  field key <$> xs = field key <$> ys →
  existsb (offending key) xs = existsb (offending key) ys ∧
  numbers key xs = numbers key ys.
Proof.
  intros Hxs. revert ys. induction Hxs as [|x xs Hx _ IH]; intros ys Hys Heq.
  - destruct ys; [split; reflexivity|discriminate].
  - destruct Hys as [|y ys Hy Hys]; [discriminate|].
    injection Heq as Hhead Htail. destruct (IH ys Hys Htail) as [IH1 IH2].
    unfold numbers in *. cbn [existsb omap list_omap].
    rewrite !offending_field, !number_at_field, Hhead, IH1, IH2 by assumption.
    split; reflexivity.
Qed.

(** X15: projecting twice, the second time on keys among those of the
    first, shows what projecting once on the second keys shows; in
    particular [select] with the same keys twice changes nothing. *)
Theorem select_select (h : list (list item)) (q : t) (keys1 keys2 : list string) :
  valid h q → keys2 ⊆ keys1 →
  observe ((select keys1 q ≫= select keys2) h) = observe (select keys2 q h).
Proof.
  intros [_ Hobj] Hsub. rewrite run_bind, (run_select keys1) by exact Hobj.
  rewrite !run_select
    by (rewrite ?contents_fresh; auto using projection_objects).
  simpl. rewrite !contents_fresh. f_equal.
  rewrite <- list_fmap_compose. apply list_fmap_ext.
  intros i x Hx. rewrite Forall_forall in Hobj.
  destruct (Hobj x ltac:(eapply list_elem_of_lookup_2, Hx)) as [o ->].
  simpl. rewrite project_project by exact Hsub. reflexivity.
Qed.

Lemma select_select_witness :
  valid store0 q0 ∧ ["stars"] ⊆ ["name"; "stars"] ∧
  observe ((select ["name"; "stars"] q0 ≫= select ["stars"]) store0) =
  Ok [IObject {[ "stars" := VNumber 3 ]}; IObject {[ "stars" := VNumber 0 ]};
      IObject {[ "stars" := VUndefined ]}].
Proof.
  assert (Hsub : ["stars"] ⊆ ["name"; "stars"]).
  { intros k Hk. apply list_elem_of_singleton in Hk as ->. right. left. }
  split; [exact q0_valid|]. split; [exact Hsub|].
  rewrite (select_select store0 q0 _ _ q0_valid Hsub). reflexivity.
Defined.

Lemma sum_without_key (keys : list string) (key : string) (xs : list item) :
  key ∉ keys → Forall is_object xs →
  existsb (offending key) (projection keys <$> xs) = false ∧
  numbers key (projection keys <$> xs) = [].
Proof.
  intros Hkey Hxs. induction Hxs as [|x xs Hx Hxs [IH1 IH2]]; [split; reflexivity|].
  assert (Hobj' : is_object (projection keys x))
    by (destruct Hx as [o ->]; eexists; reflexivity).
  unfold numbers in *. rewrite fmap_cons. cbn [existsb omap list_omap].
  rewrite offending_field, number_at_field by exact Hobj'.
  rewrite field_projection_other, IH1, IH2 by assumption.
  split; reflexivity.
Qed.

(** X16: [sum] after a projection that keeps the key gives what [sum]
    gives on the original, the total or the error; after a projection
    that drops the key it gives 0. *)
Theorem sum_after_select (h : list (list item)) (q : t)
    (keys : list string) (key : string) :
  valid h q →
  (key ∈ keys → fst ((select keys q ≫= sum key) h) = fst (sum key q h)) ∧
  (key ∉ keys → fst ((select keys q ≫= sum key) h) = Ok (Finite 0)).
Proof.
  intros [_ Hobj].
  pose proof (projection_objects keys _ Hobj) as Hobj'.
  assert (Hrun : (select keys q ≫= sum key) h =
            (if existsb (offending key) (projection keys <$> contents h q)
             then Throw (SumTypeError key)
             else Ok (double_total key (projection keys <$> contents h q)),
             h ++ [projection keys <$> contents h q])).
  { rewrite run_bind, run_select by exact Hobj.
    rewrite run_sum; rewrite contents_fresh; [reflexivity|exact Hobj']. }
  rewrite Hrun, run_sum by exact Hobj. cbn [fst]. unfold double_total.
  split; intros Hkey.
  - destruct (sum_by_fields key (projection keys <$> contents h q) (contents h q)
                Hobj' Hobj) as [-> ->]; [|reflexivity].
    rewrite <- list_fmap_compose. apply list_fmap_ext. intros i x Hx. simpl.
    apply field_projection; [exact Hkey|].
    rewrite Forall_forall in Hobj. apply Hobj. eapply list_elem_of_lookup_2, Hx.
  - destruct (sum_without_key keys key (contents h q) Hkey Hobj) as [-> ->].
    reflexivity.
Qed.

Lemma sum_after_select_witness :
  valid store0 q0 ∧
  fst ((select ["name"; "stars"] q0 ≫= sum "stars") store0) = Ok (Finite 3) ∧
  fst ((select ["name"] q0 ≫= sum "stars") store0) = Ok (Finite 0).
Proof.
  split; [exact q0_valid|].
  destruct (sum_after_select store0 q0 ["name"; "stars"] "stars" q0_valid) as [Hin _].
  destruct (sum_after_select store0 q0 ["name"] "stars" q0_valid) as [_ Hout].
  split.
  - rewrite Hin by (right; left). reflexivity.
  - apply Hout. rewrite list_elem_of_singleton. discriminate.
Defined.

Lemma filter_fmap {A} (f : A → result bool) (g : A → A) (xs : list A) :
  (∀ x, x ∈ xs → f (g x) = f x) →
  Js.filter f (g <$> xs) =
  match Js.filter f xs with
  | Ok ys => Ok (g <$> ys)
  | Throw e => Throw e
  end.
Proof.
  induction xs as [|x xs IH]; intros Hfg; [reflexivity|].
  rewrite fmap_cons. cbn [Js.filter]. rewrite (Hfg x) by left.
  rewrite IH by (intros y Hy; apply Hfg; right; exact Hy).
  destruct (f x) as [b|e]; [|reflexivity]. simpl.
  destruct (Js.filter f xs) as [ys|e]; [|reflexivity]. simpl.
  destruct b; reflexivity.
Qed.

(** When every element holds the number [n] under the key, nothing
    offends and the exact total is [n] times their count. *)
Lemma equal_fields_total (key : string) (n : Z) (xs : list item) :
  Forall is_object xs → Forall (λ it, field key it = VNumber n) xs →
  existsb (offending key) xs = false ∧
  total key xs = n * Z.of_nat (List.length xs).
Proof.
  intros Hobj Hall. induction Hall as [|x xs Hx _ IH].
  - split; [reflexivity|]. unfold total. simpl. lia.
  - apply Forall_cons in Hobj as [Hobjx Hobj]. destruct (IH Hobj) as [IH1 IH2].
    cbn [existsb]. rewrite total_cons, IH1, IH2.
    rewrite offending_field, addend_number_at, number_at_field, Hx by exact Hobjx.
    split; [reflexivity|]. change (default 0 (Some n)) with n.
    rewrite length_cons, Nat2Z.inj_succ. lia.
Qed.

Section SelectWhere.

Variable IsLessThan : value → value → option bool.

Lemma matches_projection (keys : list string) (key operator : string)
    (v : value) (it : item) :
  key ∈ keys → is_object it →
  matches IsLessThan key operator v (projection keys it) =
  matches IsLessThan key operator v it.
Proof.
  intros Hkey Hit.
  assert (Hget : Js.get_property (projection keys it) key = Js.get_property it key).
  { rewrite !get_property_field, field_projection; auto.
    destruct Hit as [o ->]. eexists. reflexivity. }
  unfold matches. rewrite Hget. reflexivity.
Qed.

(** X17: filtering on a key that the projection keeps can be done before
    or after the projection: [q.select(keys).where(key, op, v)] shows what
    [q.where(key, op, v).select(keys)] shows, exceptions included. *)
Theorem select_where_commute (h : list (list item)) (q : t)
    (keys : list string) (key operator : string) (v : value) :
  valid h q → key ∈ keys →
  observe ((select keys q ≫= where_ IsLessThan key operator v) h) =
  observe ((where_ IsLessThan key operator v q ≫= select keys) h).
Proof.
  intros [_ Hobj] Hkey.
  rewrite (observe_then _ _ (Js.filter (matches IsLessThan key operator v)));
    [|apply select_preserved, Hobj|intros q' h'; apply observe_where].
  rewrite (observe_then _ _ (λ ys, Ok (projection keys <$> ys)));
    [|apply where_preserved, Hobj
     |intros q' h' Hq'; rewrite run_select by exact Hq'; simpl;
      rewrite contents_fresh; reflexivity].
  rewrite run_select, observe_where by exact Hobj. simpl.
  rewrite contents_fresh, filter_fmap.
  - destruct (Js.filter _ (contents h q)); reflexivity.
  - intros x Hx. apply matches_projection; [exact Hkey|].
    rewrite Forall_forall in Hobj. exact (Hobj x Hx).
Qed.

(** X18: [where(key, '===', n)] followed by [sum(key)], for an integer
    [n], gives [n] times the number of elements kept, provided that
    product lies within [-2^53, 2^53], where the additions are exact. *)
Theorem sum_where_equal (h : list (list item)) (q : t) (key : string) (n : Z) :
  valid h q →
  let kept := List.filter (λ it, bool_decide (field key it = VNumber n))
                          (contents h q) in
  Z.abs (n * Z.of_nat (List.length kept)) ≤ 2 ^ 53 →
  fst ((where_ IsLessThan key "===" (VNumber n) q ≫= sum key) h) =
  Ok (Finite (n * Z.of_nat (List.length kept))).
Proof.
  intros [_ Hobj] kept Hsafe. rewrite run_bind, run_where.
  assert (Hrun : Js.filter (matches IsLessThan key "===" (VNumber n)) (contents h q)
                 = Ok kept).
  { apply filter_total. intros x Hx. rewrite Forall_forall in Hobj.
    destruct (Hobj x Hx) as [o ->]. reflexivity. }
  rewrite Hrun. pose proof (filter_objects _ _ _ Hobj Hrun) as Hys.
  rewrite (proj2 (existsb_not_an_object _) Hys).
  rewrite run_sum; rewrite contents_fresh; [|exact Hys]. cbn [fst].
  assert (Hall : Forall (λ it, field key it = VNumber n) kept).
  { apply Forall_forall. intros x Hx. apply list_elem_of_In, filter_In in Hx.
    destruct Hx as [_ Hx]. exact (bool_decide_eq_true_1 _ Hx). }
  destruct (equal_fields_total key n kept Hys Hall) as [-> Htotal].
  unfold double_total. rewrite (foldl_add_exact key kept 0).
  - rewrite Htotal. reflexivity.
  - intros k Hk.
    destruct (equal_fields_total key n (take k kept)
                (Forall_take _ _ _ Hys) (Forall_take _ _ _ Hall)) as [_ ->].
    rewrite length_take, Z.add_0_l, Z.abs_mul in *.
    rewrite (Z.abs_eq (Z.of_nat _)) in * by lia.
    etransitivity; [|exact Hsafe].
    apply Z.mul_le_mono_nonneg_l; [apply Z.abs_nonneg|lia].
Qed.

End SelectWhere.

Lemma select_where_commute_witness :
  valid store0 q0 ∧
  observe ((select ["name"; "age"] q0 ≫= where_ IsLessThan_numbers "age" "<" (VNumber 30))
             store0) =
  Ok [IObject {[ "name" := VString "Tom"; "age" := VNumber 28 ]}].
Proof.
  split; [exact q0_valid|].
  rewrite (select_where_commute IsLessThan_numbers store0 q0 ["name"; "age"]
             "age" "<" (VNumber 30) q0_valid ltac:(right; left)).
  reflexivity.
Defined.

Lemma sum_where_equal_witness :
  valid store1 q0 ∧
  fst ((where_ IsLessThan_numbers "age" "===" (VNumber 24) q0 ≫= sum "age") store1) =
  Ok (Finite 48).
Proof.
  split; [exact q0_valid_store1|].
  rewrite (sum_where_equal IsLessThan_numbers store1 q0 "age" 24 q0_valid_store1).
  - reflexivity.
  - vm_compute. discriminate.
Defined.

(** ** More on [keyBy] *)

Lemma last_keyed_is_Some (key k : string) (xs : list item) (x : item) :
  x ∈ xs → key_of key x = Some k → is_Some (last_keyed key k xs).
Proof.
  intros Hx Hk. induction xs as [|y ys IH]; [inversion Hx|].
  cbn [last_keyed]. destruct (last_keyed key k ys) as [it|] eqn:Hlast; [eauto|].
  apply elem_of_cons in Hx as [<-|Hx].
  - rewrite decide_True by exact Hk. eauto.
  - destruct (IH Hx) as [? ?]. discriminate.
Qed.

Lemma reduce_keyBy_size (key : string) (xs : list item) (acc m : gmap string item) :
  Forall is_object xs → Js.reduce (keyBy_step key) xs acc = Ok m →
  (size m ≤ size acc + List.length xs)%nat.
Proof.
  intros Hxs. revert acc.
  induction Hxs as [|it xs [o ->] _ IH]; intros acc.
  - intros [= <-]. simpl. lia.
  - cbn [Js.reduce]. rewrite keyBy_step_object. cbn [mbind result_bind].
    intros Hrun. apply IH in Hrun. cbn [List.length].
    destruct (key_of key (IObject o)) as [k|]; [|lia].
    rewrite map_size_insert in Hrun.
    destruct (acc !! k); simpl in Hrun; lia.
Qed.

(** X19: the mapping of [keyBy(key)] has exactly the keys that the
    elements possessing the field give, so at most as many entries as
    there are elements and none on an empty collection; looking up the
    key of any such element finds an element with that key; the store is
    left as it was. *)
Theorem keyBy_keys (h : list (list item)) (q : t) (key : string) :
  valid h q →
  let xs := contents h q in
  ∃ m, keyBy key q h = (Ok m, h) ∧
    dom m = list_to_set (omap (key_of key) xs) ∧
    (size m ≤ List.length xs)%nat ∧
    (xs = [] → m = ∅) ∧
    (∀ it k, it ∈ xs → key_of key it = Some k →
       ∃ it', m !! k = Some it' ∧ it' ∈ xs ∧ key_of key it' = Some k).
Proof.
  intros [_ Hobj] xs.
  destruct (reduce_keyBy_step key xs ∅ Hobj) as (m & Hrun & Hm).
  assert (Hlast : ∀ k, m !! k = last_keyed key k xs).
  { intros k. rewrite Hm. destruct (last_keyed key k xs); [reflexivity|].
    apply lookup_empty. }
  exists m. split; [rewrite run_keyBy; fold xs; rewrite Hrun; reflexivity|].
  split; [|split; [|split]].
  - apply set_eq. intros k.
    rewrite elem_of_dom, Hlast, elem_of_list_to_set, list_elem_of_omap. split.
    + intros [it Hit]. destruct (last_keyed_Some _ _ _ _ Hit) as (j & Hj & Hk & _).
      exists it. split; [eapply list_elem_of_lookup_2, Hj|exact Hk].
    + intros (x & Hx & Hk). exact (last_keyed_is_Some _ _ _ _ Hx Hk).
  - pose proof (reduce_keyBy_size key xs ∅ m Hobj Hrun) as Hsize.
    rewrite map_size_empty in Hsize. exact Hsize.
  - intros Hnil. rewrite Hnil in Hrun. injection Hrun as <-. reflexivity.
  - intros it k Hit Hk.
    destruct (last_keyed_is_Some _ _ _ _ Hit Hk) as [it' Hit'].
    exists it'. split; [rewrite Hlast; exact Hit'|].
    destruct (last_keyed_Some _ _ _ _ Hit') as (j & Hj & Hk' & _).
    split; [eapply list_elem_of_lookup_2, Hj|exact Hk'].
Qed.

Lemma keyBy_keys_witness :
  valid store1 q0 ∧
  ∃ m, keyBy "name" q0 store1 = (Ok m, store1) ∧ dom m = {[ "Jon" ]}.
Proof.
  split; [exact q0_valid_store1|].
  destruct (keyBy_keys store1 q0 "name" q0_valid_store1) as (m & Hrun & Hdom & _).
  exists m. split; [exact Hrun|]. rewrite Hdom.
  apply set_eq. intros k. rewrite elem_of_list_to_set, elem_of_singleton.
  change (omap (key_of "name") (contents store1 q0)) with ["Jon"; "Jon"].
  rewrite !elem_of_cons, elem_of_nil. tauto.
Defined.

(** X20: after a projection that keeps the key, every element has the
    field, so [keyBy(key)] files every element: an element whose source
    lacked the field is filed under ["undefined"], where [keyBy] on the
    original would have left it out. *)
Theorem keyBy_after_select (h : list (list item)) (q : t)
    (keys : list string) (key : string) :
  valid h q → key ∈ keys →
  ∃ m h', (select keys q ≫= keyBy key) h = (Ok m, h') ∧
    (∀ it, it ∈ contents h q → is_Some (m !! Js.ToPropertyKey (field key it))) ∧
    (∀ o, IObject o ∈ contents h q → o !! key = None → is_Some (m !! "undefined")).
Proof.
  intros [_ Hobj] Hkey.
  pose proof (projection_objects keys _ Hobj) as Hobj'.
  destruct (reduce_keyBy_step key _ ∅ Hobj') as (m & Hrun & Hm).
  assert (Hfiled : ∀ it, it ∈ contents h q →
            is_Some (m !! Js.ToPropertyKey (field key it))).
  { intros it Hit. rewrite Hm.
    assert (Hlast : is_Some (last_keyed key (Js.ToPropertyKey (field key it))
                               (projection keys <$> contents h q))).
    { apply (last_keyed_is_Some _ _ _ (projection keys it)).
      - apply list_elem_of_fmap_2, Hit.
      - rewrite Forall_forall in Hobj. destruct (Hobj it Hit) as [o ->].
        simpl. rewrite project_lookup, decide_True by exact Hkey. reflexivity. }
    destruct Hlast as [x ->]. eauto. }
  exists m, (h ++ [projection keys <$> contents h q]). split; [|split].
  - rewrite run_bind, run_select by exact Hobj.
    rewrite run_keyBy, contents_fresh, Hrun. reflexivity.
  - exact Hfiled.
  - intros o Ho Hnone. specialize (Hfiled _ Ho). simpl in Hfiled.
    rewrite Hnone in Hfiled. exact Hfiled.
Qed.

Lemma keyBy_after_select_witness :
  valid store0 q0 ∧
  ∃ m h', (select ["stars"] q0 ≫= keyBy "stars") store0 = (Ok m, h') ∧
          is_Some (m !! "undefined").
Proof.
  split; [exact q0_valid|].
  destruct (keyBy_after_select store0 q0 ["stars"] "stars" q0_valid ltac:(left))
    as (m & h' & Hrun & _ & Hundefined).
  exists m, h'. split; [exact Hrun|].
  apply (Hundefined sam); [right; right; left|reflexivity].
Defined.

(** ** [sum] across a split, and the empty collection *)

(** The sum of the magnitudes of the numbers under the key. *)
Definition magnitude (key : string) (xs : list item) : Z :=
  foldr Z.add 0 ((λ it, Z.abs (addend key it)) <$> xs).

Lemma total_app (key : string) (xs ys : list item) :
  total key (xs ++ ys) = total key xs + total key ys.
Proof.
  induction xs as [|x xs IH]; [unfold total; simpl; lia|].
  rewrite <- app_comm_cons, !total_cons, IH. lia.
Qed.

Lemma magnitude_app (key : string) (xs ys : list item) :
  magnitude key (xs ++ ys) = magnitude key xs + magnitude key ys.
Proof.
  unfold magnitude. induction xs as [|x xs IH]; [simpl; lia|].
  rewrite <- app_comm_cons, !fmap_cons. cbn [foldr]. rewrite IH. lia.
Qed.

Lemma magnitude_bounds (key : string) (xs : list item) :
  Z.abs (total key xs) ≤ magnitude key xs.
Proof.
  unfold magnitude, total. induction xs as [|x xs IH]; [simpl; lia|].
  rewrite !fmap_cons. cbn [foldr]. lia.
Qed.

Lemma magnitude_take (key : string) (k : nat) (xs : list item) :
  magnitude key (take k xs) ≤ magnitude key xs.
Proof.
  rewrite <- (take_drop k xs) at 2. rewrite magnitude_app.
  pose proof (magnitude_bounds key (drop k xs)). lia.
Qed.

Lemma magnitude_drop (key : string) (k : nat) (xs : list item) :
  magnitude key (drop k xs) ≤ magnitude key xs.
Proof.
  rewrite <- (take_drop k xs) at 2. rewrite magnitude_app.
  pose proof (magnitude_bounds key (take k xs)). lia.
Qed.

(** When the magnitudes add up to at most [2^53], the fold of [sum] is
    exact. *)
Lemma double_total_exact (key : string) (xs : list item) :
  magnitude key xs ≤ 2 ^ 53 → double_total key xs = Finite (total key xs).
Proof.
  intros Hsmall. unfold double_total. rewrite (foldl_add_exact key xs 0).
  - reflexivity.
  - intros k _. rewrite Z.add_0_l.
    pose proof (magnitude_bounds key (take k xs)).
    pose proof (magnitude_take key k xs). lia.
Qed.

(** X21: when no element holds a non-numeric value under the key and the
    magnitudes of the integers found there add up to at most [2^53], the
    total of the first [n] elements plus the total of the rest is the
    total of the collection, for [0 < n < length]. *)
Theorem sum_split (h : list (list item)) (q : t) (key : string) (n : Z) :
  valid h q → 0 < n < Z.of_nat (List.length (contents h q)) →
  existsb (offending key) (contents h q) = false →
  magnitude key (contents h q) ≤ 2 ^ 53 →
  ∃ a b, fst ((limit n q ≫= sum key) h) = Ok (Finite a) ∧
         fst ((offset n q ≫= sum key) h) = Ok (Finite b) ∧
         fst (sum key q h) = Ok (Finite (a + b)).
Proof.
  intros [_ Hobj] Hn Hclean Hsmall.
  assert (Hparts : existsb (offending key) (take (Z.to_nat n) (contents h q)) = false ∧
                   existsb (offending key) (drop (Z.to_nat n) (contents h q)) = false).
  { rewrite <- (take_drop (Z.to_nat n) (contents h q)), existsb_app in Hclean.
    apply orb_false_iff in Hclean. exact Hclean. }
  destruct Hparts as [Htake Hdrop].
  exists (total key (take (Z.to_nat n) (contents h q))),
         (total key (drop (Z.to_nat n) (contents h q))).
  split; [|split].
  - rewrite run_bind, limit_valid by (assumption || lia).
    rewrite run_sum; rewrite contents_fresh; [|apply Forall_take, Hobj].
    rewrite Htake, double_total_exact; [reflexivity|].
    pose proof (magnitude_take key (Z.to_nat n) (contents h q)). lia.
  - rewrite run_bind, offset_valid by (assumption || lia).
    rewrite run_sum; rewrite contents_fresh; [|apply Forall_drop, Hobj].
    rewrite Hdrop, double_total_exact; [reflexivity|].
    pose proof (magnitude_drop key (Z.to_nat n) (contents h q)). lia.
  - rewrite run_sum, Hclean, double_total_exact by assumption. cbn [fst].
    rewrite <- total_app, take_drop. reflexivity.
Qed.

Lemma sum_split_witness :
  valid store0 q0 ∧
  ∃ a b, fst ((limit 1 q0 ≫= sum "age") store0) = Ok (Finite a) ∧
         fst ((offset 1 q0 ≫= sum "age") store0) = Ok (Finite b) ∧
         fst (sum "age" q0 store0) = Ok (Finite (a + b)).
Proof.
  split; [exact q0_valid|].
  apply (sum_split store0 q0 "age" 1 q0_valid); [simpl; lia|reflexivity|].
  vm_compute. discriminate.
Defined.

(** X22: on an empty collection [paginate] always raises the offset's
    range error, whatever the page and the size; [limit(n)], [n > 0], and
    [select] return an empty Query, and [keyBy] the empty mapping. *)
Theorem empty_collection (h : list (list item)) (q : t) :
  valid h q → contents h q = [] →
  (∀ p s, paginate p s q h = (Throw OffsetRangeError, h)) ∧
  (∀ n, 0 < n → observe (limit n q h) = Ok []) ∧
  (∀ keys, observe (select keys q h) = Ok []) ∧
  (∀ key, keyBy key q h = (Ok ∅, h)).
Proof.
  intros [_ Hobj] Hnil. split; [|split; [|split]].
  - intros p s. unfold paginate.
    rewrite run_bind, offset_out_of_range; [reflexivity|].
    rewrite Hnil. simpl. lia.
  - intros n Hn. rewrite observe_limit by exact Hobj. unfold limit_list.
    destruct (Z.leb_spec n 0); [lia|]. rewrite Hnil, take_nil. reflexivity.
  - intros keys. rewrite run_select by exact Hobj. simpl.
    rewrite contents_fresh, Hnil. reflexivity.
  - intros key. rewrite run_keyBy, Hnil. reflexivity.
Qed.

Lemma empty_collection_witness :
  valid [[]] q0 ∧ contents [[]] q0 = [] ∧
  paginate 1 10 q0 [[]] = (Throw OffsetRangeError, [[]]).
Proof.
  assert (Hvalid : valid [[]] q0) by (split; [simpl; lia|constructor]).
  split; [exact Hvalid|]. split; [reflexivity|].
  destruct (empty_collection [[]] q0 Hvalid eq_refl) as [Hpage _].
  apply Hpage.
Defined.
